(** * Pandemaniac: seed selection strategies (pandemaniac.py)

    A shallow embedding of the strategy functions of [pandemaniac.py] and
    the properties of their seed schedules.

    Conventions of the embedding.
    - Node identifiers are the strings of the adjacency-list file.
    - A graph is the ordered adjacency dictionary of [nx.Graph]: a list of
      [(node, neighbours)] entries.  The order of the list is the iteration
      order of the graph's node dictionary, which is the order in which
      every score dictionary is filled.
    - Scores are rationals: the strategies only ever compare them.
    - The seed budget [num_seeds] and the round count [num_iterations] are
      natural numbers.
    - Python exceptions are the [Err] results of a small error monad.
    - The primitives of networkx and numpy that the strategies call are
      the fields of the interfaces [NetworkX] and [RandomState]; degree
      centrality, which the completion step depends on, is written out,
      as is [heapq.nlargest].
    - A library call that can raise returns a [result]; the properties
      name what they need from its value ([library_contract], [shuffles])
      and, where they promise a schedule, that the call returns
      ([library_returns]). *)

From Stdlib Require Import QArith Ascii.
From stdpp Require Import gmap strings list sorting pretty.

Open Scope string_scope.
Open Scope nat_scope.
Open Scope list_scope.

(** ** Exceptions *)

Inductive error : Type :=
| AssertionError
| IndexError
| ValueError
| LibraryError (msg : string).

Inductive result (A : Type) : Type :=
| Ok (a : A)
| Err (e : error).
Arguments Ok {A} a.
Arguments Err {A} e.

Global Instance result_ret : MRet result := λ A a, Ok a.

Global Instance result_bind : MBind result := λ A B f m,
  match m with
  | Ok a => f a
  | Err e => Err e
  end.

Definition is_Ok {A} (m : result A) : Prop := ∃ a, m = Ok a.

(** ** The graph model *)

Abbreviation node := string (only parsing).

Abbreviation Graph := (list (node * list node)) (only parsing).

(** [G.nodes()], in iteration order. *)
Definition nodes (G : Graph) : list node := G.*1.

(** [len(G)] *)
Definition len (G : Graph) : nat := length G.

(** [G[v]]: the neighbours of [v], empty for a node that is absent. *)
Fixpoint neighbors (G : Graph) (v : node) : list node :=
  match G with
  | [] => []
  | (u, nbrs) :: G' => if decide (u = v) then nbrs else neighbors G' v
  end.

(** One entry of [G.degree()]: a self-loop counts twice. *)
Definition degree (v : node) (nbrs : list node) : nat :=
  length nbrs + (if decide (v ∈ nbrs) then 1 else 0).

(** [G.remove_nodes_from(S)] on a copy: the entries of the removed nodes
    go, and so does every edge to one of them; the order of the remaining
    entries is kept. *)
Definition remove_nodes_from (S : gset node) (G : Graph) : Graph :=
  (λ e, (e.1, filter (λ w, w ∉ S) e.2)) <$> filter (λ e, e.1 ∉ S) G.

(** Graph invariants of [nx.Graph]: node keys are unique and every
    neighbour is a node. *)
Definition graph_wf (G : Graph) : Prop :=
  NoDup (nodes G) ∧ Forall (λ e, Forall (λ w, w ∈ nodes G) e.2) G.

(** ** Score dictionaries and [heapq.nlargest] *)

Abbreviation ScoreMap := (list (node * Q)) (only parsing).

(** [nx.degree_centrality(G)]:
    [if len(G) <= 1: return {n: 1 for n in G}];
    [s = 1.0 / (len(G) - 1.0)]; [{n: d * s for n, d in G.degree()}]. *)
Definition degree_centrality (G : Graph) : ScoreMap :=
  if decide (len G ≤ 1) then (λ e, (e.1, 1%Q)) <$> G
  else
    let s := (1 / (inject_Z (Z.of_nat (len G)) - 1))%Q in
    (λ e, (e.1, (inject_Z (Z.of_nat (degree e.1 e.2)) * s)%Q)) <$> G.

(** Insertion step of a stable descending sort on the score
    ([key=operator.itemgetter(1)]): [x] comes from earlier in the input
    than everything in [l], so it goes in front of the first entry whose
    score is not strictly larger. *)
Fixpoint insert_desc (x : node * Q) (l : ScoreMap) : ScoreMap :=
  match l with
  | [] => [x]
  | y :: l' =>
      match (x.2 ?= y.2)%Q with
      | Lt => y :: insert_desc x l'
      | _ => x :: y :: l'
      end
  end.

(** [sorted(items, key=operator.itemgetter(1), reverse=True)]: descending
    and stable (entries of equal score keep their input order). *)
Definition sorted_desc (items : ScoreMap) : ScoreMap :=
  foldr insert_desc [] items.

(** The order of a descending list of scored entries. *)
Definition descending (x y : node * Q) : Prop := (y.2 <= x.2)%Q.

(** [heapq.nlargest(n, items, key=operator.itemgetter(1))], which is
    [sorted(items, key=key, reverse=True)[:n]]. *)
Definition nlargest (n : nat) (items : ScoreMap) : ScoreMap :=
  take n (sorted_desc items).

(** [l * n] on Python lists. *)
Definition list_mul {A} (l : list A) (n : nat) : list A :=
  mjoin (replicate n l).

(** ** Ranker strategies *)

(** [degree_centrality_strategy] *)
Definition degree_centrality_strategy (G : Graph) (num_iterations num_seeds : nat)
  : list node :=
  let centralities_dict := degree_centrality G in
  let sorted_centralities := nlargest num_seeds centralities_dict in
  let node_keys := sorted_centralities.*1 in
  list_mul node_keys num_iterations.

(** ** The library interface

    The remaining networkx primitives.  A library call may raise, hence
    the [result]; sets are [gset]s. *)
Class NetworkX : Type := {
  betweenness_centrality : Graph → result ScoreMap;
  eigenvector_centrality : Graph → result ScoreMap;
  katz_centrality : Graph → result ScoreMap;
  clustering : Graph → result ScoreMap;
  minimum_spanning_tree : Graph → result Graph;
  dominating_set : Graph → result (gset node);
  min_weighted_vertex_cover : Graph → result (gset node);
}.

(** The process-wide generator behind [np.random]: a state and the
    primitive [permutation], which returns a shuffled [range(n)] and the
    advanced state. *)
Class RandomState : Type := {
  rng : Type;
  permutation : nat → rng → list nat * rng;
}.

(** [np.random.choice(a, size, replace=False)] on an integer [a]:
    [ValueError] for an empty population unless no sample is taken, and
    for a sample larger than the population; otherwise
    [permutation(a)[:size]]. *)
Definition choice {rs : RandomState} (a size : nat) (st : rng)
  : result (list nat * rng) :=
  if decide (a ≤ 0 ∧ size ≠ 0) then Err ValueError
  else if decide (a < size) then Err ValueError
  else let '(idx, st') := permutation a st in Ok (take size idx, st').

Section strategies.
Context {nx : NetworkX}.

(** [clustering_coefficient_strategy] *)
Definition clustering_coefficient_strategy (G : Graph)
    (num_iterations num_seeds : nat) : result (list node) :=
  clustering_dict ← clustering G;
  let sorted_clustering_nodes := nlargest num_seeds clustering_dict in
  let node_keys := sorted_clustering_nodes.*1 in
  mret (list_mul node_keys num_iterations).

(** [eigenvector_centrality_strategy] *)
Definition eigenvector_centrality_strategy (G : Graph)
    (num_iterations num_seeds : nat) : result (list node) :=
  centralities_dict ← eigenvector_centrality G;
  let sorted_centralities := nlargest num_seeds centralities_dict in
  let node_keys := sorted_centralities.*1 in
  mret (list_mul node_keys num_iterations).

(** [katz_centrality_strategy] *)
Definition katz_centrality_strategy (G : Graph)
    (num_iterations num_seeds : nat) : result (list node) :=
  centralities_dict ← katz_centrality G;
  let sorted_centralities := nlargest num_seeds centralities_dict in
  let node_keys := sorted_centralities.*1 in
  mret (list_mul node_keys num_iterations).

(** [betweenness_centrality_strategy] *)
Definition betweenness_centrality_strategy (G : Graph)
    (num_iterations num_seeds : nat) : result (list node) :=
  centralities_dict ← betweenness_centrality G;
  let sorted_centralities := nlargest num_seeds centralities_dict in
  let node_keys := sorted_centralities.*1 in
  mret (list_mul node_keys num_iterations).

(** ** Extractor strategies *)

(** The padding loop shared, verbatim, by the three extractor strategies:

    [i = 0]
    [while (len(node_keys) != num_seeds):]
    [    if nodes_top_degrees[i] not in node_keys:]
    [        node_keys.append(nodes_top_degrees[i])]
    [    i += 1]

    The last argument is [nodes_top_degrees[i:]]; indexing past its end
    raises [IndexError]. *)
Fixpoint complete (node_keys : list node) (num_seeds : nat)
    (nodes_top_degrees : list node) : result (list node) :=
  if decide (length node_keys ≠ num_seeds) then
    match nodes_top_degrees with
    | [] => Err IndexError
    | x :: rest =>
        complete (if decide (x ∉ node_keys) then node_keys ++ [x] else node_keys)
                 num_seeds rest
    end
  else Ok node_keys.

(** [assert(len(node_keys) == num_seeds)] and
    [return node_keys * num_iterations] *)
Definition replicate_round (node_keys : list node)
    (num_iterations num_seeds : nat) : result (list node) :=
  if decide (length node_keys = num_seeds)
  then Ok (list_mul node_keys num_iterations)
  else Err AssertionError.

(** [vertex_cover_strategy], up to [node_keys = [i[0] for i in ...]] *)
Definition vertex_cover_candidates (G : Graph) (num_seeds : nat)
  : result (list node) :=
  vc_nodes ← min_weighted_vertex_cover G;
  let nodes_to_remove : gset node := list_to_set (nodes G) ∖ vc_nodes in
  let subgraph := remove_nodes_from nodes_to_remove G in
  let number_of_nodes :=
    if decide (size vc_nodes < num_seeds) then size vc_nodes else num_seeds in
  let centralities_dict := degree_centrality subgraph in
  let sorted_centralities := nlargest number_of_nodes centralities_dict in
  mret (sorted_centralities.*1).

(** [vertex_cover_strategy] *)
Definition vertex_cover_strategy (G : Graph) (num_iterations num_seeds : nat)
  : result (list node) :=
  node_keys ← vertex_cover_candidates G num_seeds;
  let nodes_top_degrees := degree_centrality_strategy G 1 num_seeds in
  node_keys ← complete node_keys num_seeds nodes_top_degrees;
  replicate_round node_keys num_iterations num_seeds.

(** [dominating_set_strategy], up to [node_keys = [i[0] for i in ...]];
    the assertion is [assert(len(G.nodes()) > len(subgraph.nodes()))]. *)
Definition dominating_set_candidates (G : Graph) (num_seeds : nat)
  : result (list node) :=
  ds_nodes ← dominating_set G;
  let nodes_to_remove : gset node := list_to_set (nodes G) ∖ ds_nodes in
  let subgraph := remove_nodes_from nodes_to_remove G in
  if decide (length (nodes subgraph) < length (nodes G)) then
    let number_of_nodes :=
      if decide (size ds_nodes < num_seeds) then size ds_nodes else num_seeds in
    let centralities_dict := degree_centrality subgraph in
    let sorted_centralities := nlargest number_of_nodes centralities_dict in
    mret (sorted_centralities.*1)
  else Err AssertionError.

(** [dominating_set_strategy] *)
Definition dominating_set_strategy (G : Graph) (num_iterations num_seeds : nat)
  : result (list node) :=
  node_keys ← dominating_set_candidates G num_seeds;
  let nodes_top_degrees := degree_centrality_strategy G 1 num_seeds in
  node_keys ← complete node_keys num_seeds nodes_top_degrees;
  replicate_round node_keys num_iterations num_seeds.

(** [mst_strategy], up to [node_keys = [i[0] for i in ...]] *)
Definition mst_candidates (G : Graph) (num_seeds : nat) : result (list node) :=
  mst ← minimum_spanning_tree G;
  let number_of_nodes :=
    if decide (len mst < num_seeds) then len mst else num_seeds in
  let centralities_dict := degree_centrality mst in
  let sorted_centralities := nlargest number_of_nodes centralities_dict in
  mret (sorted_centralities.*1).

(** [mst_strategy] *)
Definition mst_strategy (G : Graph) (num_iterations num_seeds : nat)
  : result (list node) :=
  node_keys ← mst_candidates G num_seeds;
  let nodes_top_degrees := degree_centrality_strategy G 1 num_seeds in
  node_keys ← complete node_keys num_seeds nodes_top_degrees;
  replicate_round node_keys num_iterations num_seeds.

(** ** The random strategy *)

Context {rs : RandomState}.

(** The loop of [random_strategy]: one [np.random.choice] per round,
    appended to [all_seed_values]. *)
Fixpoint random_rounds (n num_iterations num_seeds : nat)
    (all_seed_values : list nat) (st : rng) : result (list nat * rng) :=
  match num_iterations with
  | 0 => Ok (all_seed_values, st)
  | S rounds_left =>
      '(seed_values, st') ← choice n num_seeds st;
      random_rounds n rounds_left num_seeds (all_seed_values ++ seed_values) st'
  end.

(** [random_strategy]; the generator state is the ambient one of the
    process, read on entry and left advanced on exit. *)
Definition random_strategy (G : Graph) (num_iterations num_seeds : nat)
    (st : rng) : result (list nat * rng) :=
  random_rounds (len G) num_iterations num_seeds [] st.

(** ** Dispatch *)

(** An entry of a seed schedule: a node identifier, or a node index for
    the random strategy. *)
Inductive seed : Type :=
| NodeId (v : node)
| NodeIndex (i : nat).

Definition lower_ascii (c : ascii) : ascii :=
  let n := nat_of_ascii c in
  if decide (65 ≤ n ∧ n ≤ 90) then ascii_of_nat (n + 32) else c.

(** [s.lower()] *)
Fixpoint lower (s : string) : string :=
  match s with
  | EmptyString => EmptyString
  | String c s' => String (lower_ascii c) (lower s')
  end.

Definition deterministic (r : result (list node)) (st : rng)
  : result (list seed * rng) :=
  output ← r; Ok (NodeId <$> (output : list node), st).

(** The body of the loop of [main] up to [output = ...]: the strategy
    letter selects the strategy, any other letter hits [assert(False)]. *)
Definition run_strategy (s : string) (G : Graph)
    (NUM_ITERATIONS num_seeds : nat) (st : rng) : result (list seed * rng) :=
  let strategy := lower s in
  if decide (strategy = "r") then
    '(output, st') ← random_strategy G NUM_ITERATIONS num_seeds st;
    Ok (NodeIndex <$> (output : list nat), st')
  else if decide (strategy = "d") then
    deterministic (Ok (degree_centrality_strategy G NUM_ITERATIONS num_seeds)) st
  else if decide (strategy = "e") then
    deterministic (eigenvector_centrality_strategy G NUM_ITERATIONS num_seeds) st
  else if decide (strategy = "b") then
    deterministic (betweenness_centrality_strategy G NUM_ITERATIONS num_seeds) st
  else if decide (strategy = "c") then
    deterministic (clustering_coefficient_strategy G NUM_ITERATIONS num_seeds) st
  else if decide (strategy = "k") then
    deterministic (katz_centrality_strategy G NUM_ITERATIONS num_seeds) st
  else if decide (strategy = "m") then
    deterministic (mst_strategy G NUM_ITERATIONS num_seeds) st
  else if decide (strategy = "s") then
    deterministic (dominating_set_strategy G NUM_ITERATIONS num_seeds) st
  else if decide (strategy = "v") then
    deterministic (vertex_cover_strategy G NUM_ITERATIONS num_seeds) st
  else Err AssertionError.

End strategies.

(** The nine strategy letters. *)
Definition strategy_tags : list string :=
  ["r"; "d"; "e"; "b"; "c"; "k"; "m"; "s"; "v"].

(** The three extractor strategies, to state what they share. *)
Inductive extractor : Type := MST | DominatingSet | VertexCover.

Definition candidates {nx : NetworkX} (e : extractor)
  : Graph → nat → result (list node) :=
  match e with
  | MST => mst_candidates
  | DominatingSet => dominating_set_candidates
  | VertexCover => vertex_cover_candidates
  end.

Definition extractor_strategy {nx : NetworkX} (e : extractor)
  : Graph → nat → nat → result (list node) :=
  match e with
  | MST => mst_strategy
  | DominatingSet => dominating_set_strategy
  | VertexCover => vertex_cover_strategy
  end.

(** All graph nodes by descending whole-graph degree centrality, ties in
    graph order. *)
Definition fallback_order (G : Graph) : list node :=
  (sorted_desc (degree_centrality G)).*1.

(** The letter of an extractor strategy. *)
Definition extractor_tag (e : extractor) : string :=
  match e with MST => "m" | DominatingSet => "s" | VertexCover => "v" end.

(** The letters of the ranker strategies, and the score dictionary each
    one ranks. *)
Definition ranker_tags : list string := ["d"; "e"; "b"; "c"; "k"].

Definition ranker_scores {nx : NetworkX} (s : string) (G : Graph)
  : result ScoreMap :=
  if decide (s = "d") then Ok (degree_centrality G)
  else if decide (s = "e") then eigenvector_centrality G
  else if decide (s = "b") then betweenness_centrality G
  else if decide (s = "c") then clustering G
  else katz_centrality G.

(** ** What the strategies rely on from the library

    A score dictionary has one entry per node of the graph it was computed
    from, and the spanning tree keeps the nodes of the graph. *)
Definition keyed_by_nodes (f : Graph → result ScoreMap) (G : Graph) : Prop :=
  ∀ sm, f G = Ok sm → sm.*1 ≡ₚ nodes G.

Definition library_contract {nx : NetworkX} (G : Graph) : Prop :=
  keyed_by_nodes betweenness_centrality G
  ∧ keyed_by_nodes eigenvector_centrality G
  ∧ keyed_by_nodes katz_centrality G
  ∧ keyed_by_nodes clustering G
  ∧ (∀ T, minimum_spanning_tree G = Ok T → nodes T ≡ₚ nodes G).

(** The library calls of strategy [s] return on [G]; for the
    dominating-set strategy, moreover, the set leaves a node of [G] out
    (the condition of its assertion). *)
Definition library_returns {nx : NetworkX} (s : string) (G : Graph) : Prop :=
  if decide (s = "e") then is_Ok (eigenvector_centrality G)
  else if decide (s = "b") then is_Ok (betweenness_centrality G)
  else if decide (s = "c") then is_Ok (clustering G)
  else if decide (s = "k") then is_Ok (katz_centrality G)
  else if decide (s = "m") then is_Ok (minimum_spanning_tree G)
  else if decide (s = "s") then
    ∃ D, dominating_set G = Ok D ∧ ∃ v, v ∈ nodes G ∧ v ∉ D
  else if decide (s = "v") then is_Ok (min_weighted_vertex_cover G)
  else True.

(** ** Notions the properties are stated with *)

(** [D] is a dominating set of [G]: every node outside [D] is adjacent to
    a member of [D]. *)
Definition dominates (G : Graph) (D : gset node) : Prop :=
  ∀ v, v ∈ nodes G → v ∉ D → ∃ u, u ∈ D ∧ v ∈ neighbors G u.

Definition edgeless (G : Graph) : Prop := Forall (λ e, e.2 = []) G.


(** The induced subgraph on [S]: the nodes of [S] and all edges of [G]
    between them. *)
Definition induced_subgraph (G : Graph) (S : gset node) : Graph :=
  (λ e, (e.1, filter (λ w, w ∈ S) e.2)) <$> filter (λ e, e.1 ∈ S) G.

(** The ranking after extraction as the specification words it: the top
    [min(k, |S|)] nodes of the induced subgraph on the extracted set [S],
    by degree centrality in that subgraph. *)
Definition rank_induced (G : Graph) (S : gset node) (k : nat) : list node :=
  (nlargest (k `min` size S) (degree_centrality (induced_subgraph G S))).*1.

(** [permutation] returns a permutation of [range(n)]. *)
Definition shuffles {rs : RandomState} : Prop :=
  ∀ n st, (permutation n st).1 ≡ₚ seq 0 n.

(** A round of the random strategy: [k] distinct node indices of a graph
    with [n] nodes. *)
Definition valid_round (n k : nat) (seed_values : list nat) : Prop :=
  length seed_values = k ∧ NoDup seed_values ∧ ∀ x, x ∈ seed_values → x < n.

(** The rounds drawn by successive [np.random.choice] calls: each round is
    sampled in the generator state the previous one left. *)
Inductive sampled {rs : RandomState} (n k : nat)
  : rng → list (list nat) → rng → Prop :=
| sampled_nil st : sampled n k st [] st
| sampled_cons st seed_values st1 rounds st2 :
    choice n k st = Ok (seed_values, st1) →
    sampled n k st1 rounds st2 →
    sampled n k st (seed_values :: rounds) st2.

(** ** An executable instance of the library interface

    The combinatorial primitives follow the networkx algorithms, with
    every set traversed in graph order.  Betweenness, eigenvector and Katz
    centrality are floating-point computations and are not part of the
    executable instance. *)
Module Reference.

(** [G.edges()]: each node's neighbours in turn, an edge to an already
    visited node being skipped. *)
Fixpoint edges_from (seen : list node) (G : Graph) : list (node * node) :=
  match G with
  | [] => []
  | (n, nbrs) :: G' =>
      ((λ nbr, (n, nbr)) <$> filter (λ nbr, nbr ∉ seen) nbrs)
        ++ edges_from (n :: seen) G'
  end.

Definition edges (G : Graph) : list (node * node) := edges_from [] G.

(** Kruskal's loop over the edges (all of weight 1, so in [G.edges()]
    order); [uf] maps a node to the representative of its subtree. *)
Fixpoint kruskal_mst_edges (uf : node → node) (es : list (node * node))
  : list (node * node) :=
  match es with
  | [] => []
  | (u, v) :: es' =>
      if decide (uf u ≠ uf v)
      then (u, v) :: kruskal_mst_edges
                       (λ x, if decide (uf x = uf u) then uf v else uf x) es'
      else kruskal_mst_edges uf es'
  end.

Definition add_node (T : Graph) (u : node) : Graph :=
  if decide (u ∈ nodes T) then T else T ++ [(u, [])].

Definition add_nbr (u v : node) (e : node * list node) : node * list node :=
  if decide (e.1 = u)
  then (e.1, if decide (v ∈ e.2) then e.2 else e.2 ++ [v])
  else e.

(** [T.add_edge(u, v)] *)
Definition add_edge (T : Graph) (uv : node * node) : Graph :=
  let T' := add_node (add_node T uv.1) uv.2 in
  add_nbr uv.2 uv.1 <$> (add_nbr uv.1 uv.2 <$> T').

(** [nx.minimum_spanning_tree(G)]: the nodes of [G], then the tree edges. *)
Definition minimum_spanning_tree (G : Graph) : Graph :=
  foldl add_edge ((λ e, (e.1, [])) <$> G) (kruskal_mst_edges id (edges G)).

(** The loop of [nx.dominating_set]: a node that is neither chosen nor
    dominated is chosen, and its neighbours become dominated. *)
Fixpoint dominating_set_loop (G : Graph) (dominating_set dominated : gset node)
    (rest : list node) : gset node :=
  match rest with
  | [] => dominating_set
  | v :: rest' =>
      if decide (v ∈ dominating_set ∪ dominated)
      then dominating_set_loop G dominating_set dominated rest'
      else
        let undominated_nbrs : gset node :=
          list_to_set (neighbors G v) ∖ dominating_set in
        dominating_set_loop G ({[v]} ∪ dominating_set)
                            (dominated ∪ undominated_nbrs) rest'
  end.

(** [nx.dominating_set(G)]; the empty graph has no start node. *)
Definition dominating_set (G : Graph) : result (gset node) :=
  match G with
  | [] => Err (LibraryError "dominating_set: empty graph")
  | _ => Ok (dominating_set_loop G ∅ ∅ (nodes G))
  end.

(** The loop of [min_weighted_vertex_cover] on unit weights: both
    endpoints of an edge pay the smaller of their remaining costs. *)
Definition pay (cost : gmap node Z) (uv : node * node) : gmap node Z :=
  let min_cost := Z.min (cost !!! uv.1) (cost !!! uv.2) in
  let cost' := <[uv.1 := (cost !!! uv.1 - min_cost)%Z]> cost in
  <[uv.2 := (cost' !!! uv.2 - min_cost)%Z]> cost'.

(** [min_weighted_vertex_cover(G)]: the nodes whose cost reached 0. *)
Definition min_weighted_vertex_cover (G : Graph) : gset node :=
  let cost := foldl pay (list_to_map ((λ v, (v, 1%Z)) <$> nodes G)) (edges G) in
  list_to_set (filter (λ u, cost !!! u = 0%Z) (nodes G)).

(** [nx.clustering(G)]: for each node [v] with neighbourhood [vs] (itself
    excluded), [t / (d * (d - 1))] where [d = len(vs)] and [t] counts the
    pairs of adjacent neighbours, and 0 when [t] is 0. *)
Definition clustering (G : Graph) : ScoreMap :=
  (λ e,
     let vs := filter (λ w, w ≠ e.1) e.2 in
     let t := sum_list ((λ w, length (filter (λ x, x ∈ neighbors G w ∧ x ≠ w) vs)) <$> vs) in
     let d := length vs in
     (e.1, if decide (t = 0) then 0%Q
           else (inject_Z (Z.of_nat t) / inject_Z (Z.of_nat (d * (d - 1))))%Q))
  <$> G.

Definition unavailable {A} (name : string) : result A :=
  Err (LibraryError name).

Definition networkx : NetworkX :=
  Build_NetworkX
    (λ _, unavailable "betweenness_centrality")
    (λ _, unavailable "eigenvector_centrality")
    (λ _, unavailable "katz_centrality")
    (λ G, Ok (clustering G))
    (λ G, Ok (minimum_spanning_tree G))
    dominating_set
    (λ G, Ok (min_weighted_vertex_cover G)).

(** A generator whose state is a counter: the n-th permutation drawn is
    [range(n)] rotated by the counter. *)
Definition counter : RandomState := {|
  rng := nat;
  permutation n st := (rotate st (seq 0 n), S st);
|}.

End Reference.

(** ** Example graphs *)

(** The path A - B - C. *)
Definition P3 : Graph := [("A", ["B"]); ("B", ["A"; "C"]); ("C", ["B"])].

(** One edge. *)
Definition K2 : Graph := [("a", ["b"]); ("b", ["a"])].

(** Two isolated nodes. *)
Definition E2 : Graph := [("a", []); ("b", [])].

(** A 4-cycle a - b - d - c - a with the chord b - c. *)
Definition C4_chord : Graph :=
  [("a", ["b"; "c"]); ("b", ["a"; "c"; "d"]);
   ("c", ["a"; "b"; "d"]); ("d", ["b"; "c"])].


(** ** Output files and the loop of [main]

    The rest of the process state: the files written so far (name to
    content), the lines printed so far, and the state of the generator.
    A write to a file always goes through. *)

(** The line break. *)
Definition newline : string := String "010" "".

(** The characters of a string; [c ∈ chars s] is Python's [c in s]. *)
Definition chars (s : string) : list ascii := String.list_ascii_of_string s.

(** [str(x)] on an entry of a schedule.  A node identifier is a unicode
    string, which [str] encodes as ASCII: itself when all its characters
    are ASCII, [UnicodeEncodeError] otherwise.  A node index is printed in
    decimal. *)
Definition is_ascii (s : string) : Prop :=
  Forall (λ c, nat_of_ascii c < 128) (chars s).

Definition str (x : seed) : result string :=
  match x with
  | NodeId v =>
      if decide (is_ascii v) then Ok v
      else Err (LibraryError "UnicodeEncodeError")
  | NodeIndex i => Ok (pretty i)
  end.

(** [s.split(c)] for a separator of one character. *)
Fixpoint split_on (c : ascii) (s : string) : list string :=
  match s with
  | "" => [""]
  | String a s' =>
      if decide (a = c) then "" :: split_on c s'
      else match split_on c s' with
           | w :: ws => String a w :: ws
           | [] => [String a ""]
           end
  end.

(** A decimal digit. *)
Definition is_digit (a : ascii) : Prop := is_Some (Ascii.is_nat a).

(** A node identifier that [str] accepts and that stays on one line. *)
Definition printable (v : node) : Prop :=
  is_ascii v ∧ "010"%char ∉ chars v.

(** An entry of a schedule that [str] accepts and that stays on one line. *)
Definition printable_seed (x : seed) : Prop :=
  match x with NodeId v => printable v | NodeIndex _ => True end.

(** [sep.join(lines)] *)
Definition join (sep : string) (lines : list string) : string :=
  String.concat sep lines.

(** [output_list]: [open(filename, 'w')] creates or empties the file, then
    the entries are converted and the joined text is written. *)
Definition output_list (filename : string) (seed_values : list seed)
    (files : gmap string string) : gmap string string * result () :=
  let files := <[filename := ""]> files in
  match mapM str seed_values with
  | Ok lines => (<[filename := join newline lines]> files, Ok ())
  | Err e => (files, Err e)
  end.

(** [s[:-n]] *)
Definition drop_end (n : nat) (s : string) : string :=
  String.substring 0 (String.length s - n) s.

Record process {rs : RandomState} : Type := Process {
  files : gmap string string;
  printed : list string;
  generator : rng;
}.

Section main_definitions.
Context {nx : NetworkX} {rs : RandomState}.

(** One turn of the loop of [main].  An exception ends the run where it is
    raised: what was written and printed before stays. *)
Definition main_step (G : Graph) (GRAPH_FILENAME : string)
    (NUM_ITERATIONS num_seeds : nat) (s : string) (p : process)
  : process * result () :=
  let strategy := lower s in
  match run_strategy s G NUM_ITERATIONS num_seeds (generator p) with
  | Err e => (p, Err e)
  | Ok (output, st') =>
      let raw_file := drop_end 5 GRAPH_FILENAME in
      let output_filename := raw_file +:+ "_" +:+ strategy +:+ ".txt" in
      match output_list output_filename output (files p) with
      | (files', Err e) => (Process rs files' (printed p) st', Err e)
      | (files', Ok _) =>
          (Process rs files'
             (printed p ++ [strategy +:+ " successfully generated."]) st',
           Ok ())
      end
  end.

(** [for s in strategies: ...] *)
Fixpoint main_loop (G : Graph) (GRAPH_FILENAME : string)
    (NUM_ITERATIONS num_seeds : nat) (strategies : list string) (p : process)
  : process * result () :=
  match strategies with
  | [] => (p, Ok ())
  | s :: strategies =>
      match main_step G GRAPH_FILENAME NUM_ITERATIONS num_seeds s p with
      | (p', Ok _) =>
          main_loop G GRAPH_FILENAME NUM_ITERATIONS num_seeds strategies p'
      | (p', Err e) => (p', Err e)
      end
  end.

(** [main] from [GRAPH_FILENAME = filename + ".json"] on, for the graph
    [G] that [load_graph] returned and a seed budget that is not
    negative. *)
Definition main (filename : string) (num_seeds : nat)
    (strategies : list string) (G : Graph) (p : process)
  : process * result () :=
  let GRAPH_FILENAME := filename +:+ ".json" in
  let NUM_ITERATIONS := 50 in
  main_loop G GRAPH_FILENAME NUM_ITERATIONS num_seeds strategies p.

End main_definitions.

(** The name of the file that a turn of the loop writes for the letter
    [s], and the line it prints. *)
Definition output_name (GRAPH_FILENAME s : string) : string :=
  drop_end 5 GRAPH_FILENAME +:+ "_" +:+ lower s +:+ ".txt".

Definition message (s : string) : string :=
  lower s +:+ " successfully generated.".

(** A process that has written and printed nothing, with the counter
    generator at 0. *)
Definition start : process (rs:=Reference.counter) :=
  Process Reference.counter ∅ [] (0 : nat).

(** ** Loading the graph *)

(** [load_graph], from the dictionary [graph] that [json.load] returned,
    given as its items in the order in which the dictionary is iterated:
    [nx.Graph(graph)] on a dictionary of lists adds the keys as nodes and
    then an edge for every neighbour that a key lists.  The result lists
    the nodes as they were added; the node dictionary of the graph need
    not iterate in that order (a Python 2 dictionary iterates in hash
    order), so the properties of [load_graph] speak of membership and
    adjacency, and the properties of the strategies hold for every node
    order. *)
Definition load_graph (graph : list (node * list node)) : Graph :=
  let G := foldl Reference.add_node [] graph.*1 in
  foldl Reference.add_edge G (e ← graph; (λ nbr, (e.1, nbr)) <$> e.2).

(** The file lists [w] as a neighbour of [v]. *)
Definition listed (graph : list (node * list node)) (v w : node) : Prop :=
  ∃ nbrs, (v, nbrs) ∈ graph ∧ w ∈ nbrs.

(** Adjacency is symmetric and no neighbour is held twice. *)
Definition undirected (G : Graph) : Prop :=
  (∀ v w, w ∈ neighbors G v → v ∈ neighbors G w)
  ∧ ∀ v, NoDup (neighbors G v).

(** ** Reading the input *)

(** The terminal: the lines still to be read, and what was written. *)
Record console : Type := Console {
  stdin : list string;
  stdout : list string;
}.

(** [raw_input(prompt)]: the prompt is written, then a line is read;
    [EOFError] when there is none. *)
Definition raw_input (prompt : string) (c : console) : console * result string :=
  match stdin c with
  | [] => (Console [] (stdout c ++ [prompt]), Err (LibraryError "EOFError"))
  | line :: rest => (Console rest (stdout c ++ [prompt]), Ok line)
  end.

(** [s.lstrip()], [s.rstrip()] and [s.strip()]: white space is what
    [isspace] accepts. *)
Fixpoint lstrip (s : string) : string :=
  match s with
  | "" => ""
  | String a s' => if Ascii.is_space a then lstrip s' else s
  end.

Definition rstrip (s : string) : string := String.rev (lstrip (String.rev s)).

Definition strip (s : string) : string := rstrip (lstrip s).

(** [int(s)] on a string is taken from the interpreter; it may return a
    negative number. *)
Class Builtins : Type := {
  int : string → result Z;
}.

(** [get_user_input] *)
Definition get_user_input {py : Builtins} (c : console)
  : console * result (string * Z * list string) :=
  match raw_input "Enter the filename (leave out .json extension) -> " c with
  | (c, Err e) => (c, Err e)
  | (c, Ok filename) =>
      let filename_split := split_on "." (strip filename) in
      if decide (length filename_split = 3) then
        let num_seeds := filename_split !!! 1 in
        match raw_input
                "Enter the strategies to run separated by spaces -> " c with
        | (c, Err e) => (c, Err e)
        | (c, Ok strategy_str) =>
            let strategy_lst := String.words (strip strategy_str) in
            (c, n ← int num_seeds; Ok (filename, n, strategy_lst))
        end
      else (c, Err AssertionError)
  end.

(** A word of a line: not empty, no white space. *)
Definition word (w : string) : Prop :=
  w ≠ "" ∧ Forall (λ a, Ascii.is_space a = false) (chars w).

(** [int] raises nothing but [ValueError]. *)
Definition int_raises_ValueError {py : Builtins} : Prop :=
  ∀ s e, int s = Err e → e = ValueError.

(** The number of dots of a string. *)
Definition dots (s : string) : nat :=
  length (filter (λ a, a = "."%char) (chars s)).

(** An [int] for examples: decimal digits only. *)
Fixpoint digits_value (acc : Z) (s : string) : result Z :=
  match s with
  | "" => Ok acc
  | String a s' =>
      match Ascii.is_nat a with
      | Some d => digits_value (10 * acc + Z.of_nat d)%Z s'
      | None => Err ValueError
      end
  end.

Definition digits_only : Builtins :=
  {| int s := if decide (s = "") then Err ValueError else digits_value 0 s |}.

(** * Properties *)

(** ** Sorting *)

Lemma insert_desc_perm x l : insert_desc x l ≡ₚ x :: l.
Proof.
  induction l as [|y l IH]; simpl; [done|].
  destruct (x.2 ?= y.2)%Q; try done.
  rewrite IH. apply Permutation_swap.
Qed.

Lemma sorted_desc_perm items : sorted_desc items ≡ₚ items.
Proof.
  induction items as [|x items IH]; simpl; [done|].
  by rewrite insert_desc_perm, IH.
Qed.

Lemma sorted_desc_length items : length (sorted_desc items) = length items.
Proof. by rewrite sorted_desc_perm. Qed.

Lemma sorted_desc_keys items : (sorted_desc items).*1 ≡ₚ items.*1.
Proof. by rewrite sorted_desc_perm. Qed.

Lemma insert_desc_sorted x l :
  StronglySorted descending l → StronglySorted descending (insert_desc x l).
Proof.
  induction 1 as [|y l Hl IH Hy]; simpl.
  { repeat constructor. }
  destruct (x.2 ?= y.2)%Q eqn:Hc.
  - apply Qeq_alt in Hc. constructor; [by constructor|].
    constructor.
    + unfold descending. rewrite Hc. apply Qle_refl.
    + eapply Forall_impl; [exact Hy|]. unfold descending. intros z Hz.
      rewrite Hc. done.
  - apply Qlt_alt in Hc. constructor; [done|].
    rewrite insert_desc_perm. constructor.
    + unfold descending. by apply Qlt_le_weak.
    + done.
  - apply Qgt_alt in Hc. constructor; [by constructor|].
    constructor.
    + unfold descending. by apply Qlt_le_weak.
    + eapply Forall_impl; [exact Hy|]. unfold descending. intros z Hz.
      eapply Qle_trans; [exact Hz|]. by apply Qlt_le_weak.
Qed.

Lemma sorted_desc_sorted items : StronglySorted descending (sorted_desc items).
Proof.
  induction items as [|x items IH]; simpl; [constructor|].
  by apply insert_desc_sorted.
Qed.

(** Stability: the entries of any one score come out in input order. *)
Lemma insert_desc_filter q x l :
  filter (λ e, Qeq_bool e.2 q = true) (insert_desc x l)
  = filter (λ e, Qeq_bool e.2 q = true) (x :: l).
Proof.
  induction l as [|y l IH]; simpl; [done|].
  destruct (x.2 ?= y.2)%Q eqn:Hc; try done.
  rewrite !filter_cons, IH, !filter_cons.
  destruct (decide (Qeq_bool y.2 q = true)) as [Hy|Hy]; [|done].
  destruct (decide (Qeq_bool x.2 q = true)) as [Hx|Hx]; [|done].
  apply Qeq_bool_iff in Hx, Hy. apply Qlt_alt in Hc.
  rewrite Hx, Hy in Hc. by apply Qlt_irrefl in Hc.
Qed.

Lemma sorted_desc_stable q items :
  filter (λ e, Qeq_bool e.2 q = true) (sorted_desc items)
  = filter (λ e, Qeq_bool e.2 q = true) items.
Proof.
  induction items as [|x items IH]; simpl; [done|].
  by rewrite insert_desc_filter, !filter_cons, IH.
Qed.



Lemma nlargest_length n items : length (nlargest n items) = n `min` length items.
Proof. unfold nlargest. by rewrite length_take, sorted_desc_length. Qed.

Lemma nlargest_keys_sublist n items :
  (nlargest n items).*1 `sublist_of` (sorted_desc items).*1.
Proof. unfold nlargest. apply fmap_sublist, sublist_take. Qed.

Lemma nlargest_all n items :
  length items ≤ n → nlargest n items = sorted_desc items.
Proof. intros. unfold nlargest. apply take_ge. by rewrite sorted_desc_length. Qed.


(** ** List repetition *)

Lemma list_mul_S {A} (l : list A) n : list_mul l (S n) = l ++ list_mul l n.
Proof. done. Qed.

Lemma list_mul_1 {A} (l : list A) : list_mul l 1 = l.
Proof. unfold list_mul. simpl. apply app_nil_r. Qed.

Lemma list_mul_length {A} (l : list A) n : length (list_mul l n) = length l * n.
Proof.
  induction n as [|n IH]; [simpl; lia|].
  rewrite list_mul_S, length_app, IH. lia.
Qed.

Lemma list_mul_block {A} (l : list A) n i :
  i < n → take (length l) (drop (i * length l) (list_mul l n)) = l.
Proof.
  revert i. induction n as [|n IH]; intros i Hi; [lia|].
  rewrite list_mul_S. destruct i as [|i].
  - change (0 * length l) with 0. by rewrite drop_0, take_app_length.
  - replace (S i * length l) with (length l + i * length l) by lia.
    rewrite drop_app_add. apply IH. lia.
Qed.

Lemma list_mul_fmap {A B} (f : A → B) (l : list A) n :
  f <$> list_mul l n = list_mul (f <$> l) n.
Proof.
  induction n as [|n IH]; [done|]. by rewrite !list_mul_S, fmap_app, IH.
Qed.

(** ** The padding loop *)

Lemma filter_ext_in {A} (P1 P2 : A → Prop)
    `{!∀ x, Decision (P1 x), !∀ x, Decision (P2 x)} (l : list A) :
  (∀ x, x ∈ l → P1 x ↔ P2 x) → filter P1 l = filter P2 l.
Proof.
  induction l as [|a l IH]; intros Hiff; [done|].
  rewrite !filter_cons, IH.
  - apply decide_ext, Hiff. left.
  - intros x Hx. apply Hiff. by right.
Qed.

(** The nodes of a duplicate-free list that a duplicate-free list [c]
    leaves out. *)
Lemma filter_notin_length_ge (c l : list node) :
  NoDup l → length l ≤ length c + length (filter (λ v, v ∉ c) l).
Proof.
  intros Hl.
  pose proof (filter_app_complement (λ v, v ∈ c) l) as Hperm.
  apply Permutation_length in Hperm. rewrite length_app in Hperm.
  assert (length (filter (λ v, v ∈ c) l) ≤ length c).
  { apply submseteq_length, NoDup_submseteq; [by apply NoDup_filter|].
    intros x Hx. by apply list_elem_of_filter in Hx as [? _]. }
  lia.
Qed.

Lemma filter_notin_length_le (c l : list node) :
  NoDup c → (∀ x, x ∈ c → x ∈ l) →
  length c + length (filter (λ v, v ∉ c) l) ≤ length l.
Proof.
  intros Hc Hsub.
  pose proof (filter_app_complement (λ v, v ∈ c) l) as Hperm.
  apply Permutation_length in Hperm. rewrite length_app in Hperm.
  assert (length c ≤ length (filter (λ v, v ∈ c) l)).
  { apply submseteq_length, NoDup_submseteq; [done|].
    intros x Hx. apply list_elem_of_filter. auto. }
  lia.
Qed.

(** Closed form of the loop: it appends, in order, the first
    [num_seeds - len(node_keys)] nodes of the fallback list that are not
    yet present, and raises [IndexError] when there are not that many. *)
Lemma complete_closed_form (node_keys : list node) num_seeds rest :
  NoDup rest → length node_keys ≤ num_seeds →
  complete node_keys num_seeds rest =
    let fresh := filter (λ v, v ∉ node_keys) rest in
    if decide (num_seeds - length node_keys ≤ length fresh)
    then Ok (node_keys ++ take (num_seeds - length node_keys) fresh)
    else Err IndexError.
Proof.
  intros Hnd. revert node_keys.
  induction Hnd as [|x rest Hx Hnd IH]; intros c Hlen; simpl.
  - destruct (decide (length c ≠ num_seeds)) as [Hne|Heq].
    + rewrite decide_False by (simpl; lia). done.
    + rewrite decide_True by lia.
      replace (num_seeds - length c) with 0 by lia. by rewrite app_nil_r.
  - destruct (decide (length c ≠ num_seeds)) as [Hne|Heq].
    + rewrite filter_cons.
      destruct (decide (x ∉ c)) as [Hxc|Hxc].
      * rewrite IH by (rewrite length_app; simpl; lia).
        simpl. rewrite length_app. simpl.
        assert (filter (λ v, v ∉ c ++ [x]) rest = filter (λ v, v ∉ c) rest)
          as ->.
        { apply filter_ext_in. intros y Hy.
          rewrite elem_of_app, list_elem_of_singleton.
          split; [tauto|]. intros Hyc [?| ->]; done. }
        replace (num_seeds - length c) with (S (num_seeds - (length c + 1)))
          by lia.
        simpl. rewrite <-app_assoc. simpl.
        destruct (decide (num_seeds - (length c + 1)
                          ≤ length (filter (λ v, v ∉ c) rest))).
        -- rewrite decide_True by lia. done.
        -- rewrite decide_False by lia. done.
      * rewrite IH by done. done.
    + rewrite decide_True by lia.
      replace (num_seeds - length c) with 0 by lia. by rewrite app_nil_r.
Qed.

Lemma complete_length (node_keys : list node) num_seeds rest r :
  complete node_keys num_seeds rest = Ok r → length r = num_seeds.
Proof.
  revert node_keys. induction rest as [|x rest IH]; intros c; simpl.
  - destruct (decide (length c ≠ num_seeds)); [done|].
    intros [= <-]. lia.
  - destruct (decide (length c ≠ num_seeds)); [apply IH|].
    intros [= <-]. lia.
Qed.

Lemma complete_error (node_keys : list node) num_seeds rest e :
  complete node_keys num_seeds rest = Err e → e = IndexError.
Proof.
  revert node_keys. induction rest as [|x rest IH]; intros c; simpl.
  - destruct (decide (length c ≠ num_seeds)); congruence.
  - destruct (decide (length c ≠ num_seeds)); [apply IH|done].
Qed.

Lemma take_filter_take {A} (P : A → Prop) `{!∀ x, Decision (P x)}
    m k (l : list A) :
  m ≤ length (filter P (take k l)) →
  take m (filter P (take k l)) = take m (filter P l).
Proof.
  intros Hm. rewrite <-(take_drop k l) at 2.
  by rewrite filter_app, take_app_le.
Qed.

(** ** Ranking a graph by degree centrality *)

Lemma degree_centrality_keys G : (degree_centrality G).*1 = nodes G.
Proof.
  unfold degree_centrality, nodes. case_decide.
  - rewrite <-list_fmap_compose. by apply list_fmap_ext.
  - rewrite <-list_fmap_compose. by apply list_fmap_ext.
Qed.

Lemma fallback_order_perm G : fallback_order G ≡ₚ nodes G.
Proof.
  unfold fallback_order. by rewrite sorted_desc_keys, degree_centrality_keys.
Qed.

Lemma fallback_order_length G : length (fallback_order G) = len G.
Proof. rewrite fallback_order_perm. unfold nodes, len. apply length_fmap. Qed.

Lemma degree_centrality_strategy_round G num_iterations num_seeds :
  degree_centrality_strategy G num_iterations num_seeds
  = list_mul (take num_seeds (fallback_order G)) num_iterations.
Proof.
  unfold degree_centrality_strategy, nlargest, fallback_order.
  by rewrite fmap_take.
Qed.

Lemma nodes_top_degrees_take G num_seeds :
  degree_centrality_strategy G 1 num_seeds = take num_seeds (fallback_order G).
Proof. by rewrite degree_centrality_strategy_round, list_mul_1. Qed.

Lemma remove_nodes_from_nodes S G :
  nodes (remove_nodes_from S G) = filter (λ v, v ∉ S) (nodes G).
Proof.
  unfold remove_nodes_from, nodes.
  induction G as [|e G IH]; [done|].
  rewrite fmap_cons, !filter_cons.
  destruct (decide (e.1 ∉ S)); [|exact IH].
  rewrite !fmap_cons. simpl. f_equal. exact IH.
Qed.

(** The top of a degree ranking of a graph [H] with unique node keys. *)
Lemma ranked_keys_facts (H : Graph) m :
  NoDup (nodes H) →
  let c := (nlargest m (degree_centrality H)).*1 in
  NoDup c ∧ (∀ x, x ∈ c → x ∈ nodes H) ∧ length c = m `min` len H.
Proof.
  intros Hnd c.
  assert (c `sublist_of` fallback_order H) as Hsub
    by apply nlargest_keys_sublist.
  split; [|split].
  - eapply sublist_NoDup; [|exact Hsub]. by rewrite fallback_order_perm.
  - intros x Hx. rewrite <-fallback_order_perm. by eapply elem_of_sublist.
  - unfold c. rewrite length_fmap, nlargest_length.
    f_equal. rewrite <-(length_fmap fst), degree_centrality_keys.
    unfold nodes, len. apply length_fmap.
Qed.

Section extractors.
Context {nx : NetworkX}.

Lemma extractor_strategy_unfold e G num_iterations num_seeds :
  extractor_strategy e G num_iterations num_seeds =
    node_keys ← candidates e G num_seeds;
    node_keys ← complete node_keys num_seeds
                  (degree_centrality_strategy G 1 num_seeds);
    replicate_round node_keys num_iterations num_seeds.
Proof. by destruct e. Qed.

(** The candidates of an extractor strategy are distinct nodes of the
    graph, at most [num_seeds] of them. *)
Lemma candidates_facts e G num_seeds c :
  graph_wf G → library_contract G → candidates e G num_seeds = Ok c →
  NoDup c ∧ (∀ x, x ∈ c → x ∈ nodes G) ∧ length c ≤ num_seeds.
Proof.
  intros [Hnd _] (_ & _ & _ & _ & Hmst) Hc.
  destruct e; simpl in Hc.
  - unfold mst_candidates in Hc.
    destruct (minimum_spanning_tree G) as [T|] eqn:HT; [|done].
    simpl in Hc. injection Hc as <-.
    specialize (Hmst T eq_refl).
    edestruct (ranked_keys_facts T) as (Hc1 & Hc2 & Hc3);
      [by rewrite Hmst|].
    split; [exact Hc1|]. split.
    + intros x Hx. rewrite <-Hmst. by apply Hc2.
    + rewrite Hc3. case_decide; lia.
  - unfold dominating_set_candidates in Hc.
    destruct (dominating_set G) as [D|] eqn:HD; [|done].
    simpl in Hc. case_decide; [|done]. injection Hc as <-.
    edestruct (ranked_keys_facts
                 (remove_nodes_from (list_to_set (nodes G) ∖ D) G))
      as (Hc1 & Hc2 & Hc3).
    { rewrite remove_nodes_from_nodes. by apply NoDup_filter. }
    split; [exact Hc1|]. split.
    + intros x Hx. apply Hc2 in Hx. rewrite remove_nodes_from_nodes in Hx.
      by apply list_elem_of_filter in Hx as [_ ?].
    + rewrite Hc3. case_decide; lia.
  - unfold vertex_cover_candidates in Hc.
    destruct (min_weighted_vertex_cover G) as [D|] eqn:HD; [|done].
    simpl in Hc. injection Hc as <-.
    edestruct (ranked_keys_facts
                 (remove_nodes_from (list_to_set (nodes G) ∖ D) G))
      as (Hc1 & Hc2 & Hc3).
    { rewrite remove_nodes_from_nodes. by apply NoDup_filter. }
    split; [exact Hc1|]. split.
    + intros x Hx. apply Hc2 in Hx. rewrite remove_nodes_from_nodes in Hx.
      by apply list_elem_of_filter in Hx as [_ ?].
    + rewrite Hc3. case_decide; lia.
Qed.

(** With at least [num_seeds] nodes the loop succeeds ... *)
Lemma complete_enough_nodes G num_seeds (c : list node) :
  NoDup (nodes G) → NoDup c → length c ≤ num_seeds → num_seeds ≤ len G →
  complete c num_seeds (degree_centrality_strategy G 1 num_seeds)
  = Ok (c ++ take (num_seeds - length c)
                  (filter (λ v, v ∉ c) (fallback_order G))).
Proof.
  intros Hnd Hc Hlen Hk. rewrite nodes_top_degrees_take.
  assert (NoDup (take num_seeds (fallback_order G))) as Htop.
  { eapply sublist_NoDup; [|apply sublist_take].
    by rewrite fallback_order_perm. }
  rewrite complete_closed_form by done. simpl.
  pose proof (filter_notin_length_ge c _ Htop) as Hfresh.
  rewrite length_take, fallback_order_length in Hfresh.
  rewrite decide_True by lia.
  rewrite take_filter_take by lia. done.
Qed.

(** ... and with fewer it runs off the end of the fallback list. *)
Lemma complete_too_few_nodes G num_seeds (c : list node) :
  NoDup (nodes G) → NoDup c → (∀ x, x ∈ c → x ∈ nodes G) →
  len G < num_seeds →
  complete c num_seeds (degree_centrality_strategy G 1 num_seeds)
  = Err IndexError.
Proof.
  intros Hnd Hc Hsub Hk. rewrite nodes_top_degrees_take.
  rewrite take_ge by (rewrite fallback_order_length; lia).
  assert (length c + length (filter (λ v, v ∉ c) (fallback_order G)) ≤ len G)
    as Hfresh.
  { rewrite <-fallback_order_length. apply filter_notin_length_le; [done|].
    intros x Hx. rewrite fallback_order_perm. auto. }
  rewrite complete_closed_form; [|by rewrite fallback_order_perm|lia].
  simpl. rewrite decide_False by lia. done.
Qed.

End extractors.

(** ** The reference instance on the example graphs *)

Ltac by_computation := apply (bool_decide_unpack _); vm_compute; exact I.

Lemma P3_wf : graph_wf P3.
Proof. split; by_computation. Qed.

Lemma reference_clustering_keys G : (Reference.clustering G).*1 = nodes G.
Proof.
  unfold Reference.clustering, nodes. rewrite <-list_fmap_compose.
  by apply list_fmap_ext.
Qed.

(** The contract at a graph whose spanning tree has been computed. *)
Lemma reference_contract G :
  nodes (Reference.minimum_spanning_tree G) = nodes G →
  library_contract (nx:=Reference.networkx) G.
Proof.
  intros HT. repeat split; try (intros sm [=]; fail).
  - intros sm [= <-]. by rewrite reference_clustering_keys.
  - intros T [= <-]. by rewrite HT.
Qed.

(** ** Extractor strategies: completion *)

(** The round of an extractor strategy on a graph with enough nodes. *)
Lemma extractor_round_ok {nx : NetworkX} e G num_iterations num_seeds c :
  graph_wf G → library_contract G → num_seeds ≤ len G →
  candidates e G num_seeds = Ok c →
  let round :=
    c ++ take (num_seeds - length c) (filter (λ v, v ∉ c) (fallback_order G)) in
  complete c num_seeds (degree_centrality_strategy G 1 num_seeds) = Ok round
  ∧ extractor_strategy e G num_iterations num_seeds
    = Ok (list_mul round num_iterations)
  ∧ length round = num_seeds
  ∧ NoDup round.
Proof.
  intros Hwf Hlib Hk Hc round.
  destruct (candidates_facts e G num_seeds c Hwf Hlib Hc) as (Hnd & Hsub & Hlen).
  destruct Hwf as [HG _].
  pose proof (complete_enough_nodes G num_seeds c HG Hnd Hlen Hk) as Hcomplete.
  fold round in Hcomplete.
  pose proof (complete_length _ _ _ _ Hcomplete) as Hround.
  split; [exact Hcomplete|]. split; [|split; [exact Hround|]].
  - rewrite extractor_strategy_unfold, Hc. simpl. rewrite Hcomplete. simpl.
    unfold replicate_round. by rewrite decide_True.
  - apply NoDup_app. split; [exact Hnd|]. split.
    + intros x Hx Hin.
      apply elem_of_take in Hin as (i & Hin & _).
      apply list_elem_of_lookup_2 in Hin.
      by apply list_elem_of_filter in Hin as [? _].
    + eapply sublist_NoDup; [|apply sublist_take].
      apply NoDup_filter. by rewrite fallback_order_perm.
Qed.

(** C3. For each extractor strategy (MST, dominating set, vertex cover) on
    a graph with at least [num_seeds] nodes, the completion step appends to
    the ranked candidates the nodes of the descending whole-graph degree
    order that are not yet present, in that order, until the round has
    exactly [num_seeds] entries; the round has no duplicate, and the
    strategy returns it repeated. *)
Theorem extractor_completion {nx : NetworkX} e G num_iterations num_seeds c :
  graph_wf G → library_contract G → num_seeds ≤ len G →
  candidates e G num_seeds = Ok c →
  let round :=
    c ++ take (num_seeds - length c) (filter (λ v, v ∉ c) (fallback_order G)) in
  fallback_order G ≡ₚ nodes G
  ∧ StronglySorted descending (sorted_desc (degree_centrality G))
  ∧ complete c num_seeds (degree_centrality_strategy G 1 num_seeds) = Ok round
  ∧ extractor_strategy e G num_iterations num_seeds
    = Ok (list_mul round num_iterations)
  ∧ length round = num_seeds
  ∧ NoDup round.
Proof.
  intros Hwf Hlib Hk Hc round.
  split; [apply fallback_order_perm|].
  split; [apply sorted_desc_sorted|]. by apply extractor_round_ok.
Qed.

Lemma extractor_completion_witness :
  graph_wf P3
  ∧ library_contract (nx:=Reference.networkx) P3
  ∧ 3 ≤ len P3
  ∧ candidates (nx:=Reference.networkx) VertexCover P3 3 = Ok ["A"; "B"]
  ∧ extractor_strategy (nx:=Reference.networkx) VertexCover P3 2 3
    = Ok ["A"; "B"; "C"; "A"; "B"; "C"].
Proof.
  assert (graph_wf P3) as Hwf by (split; by_computation).
  assert (library_contract (nx:=Reference.networkx) P3) as Hlib
    by (apply reference_contract; vm_compute; reflexivity).
  assert (3 ≤ len P3) as Hk by (vm_compute; lia).
  assert (candidates (nx:=Reference.networkx) VertexCover P3 3 = Ok ["A"; "B"])
    as Hc by (vm_compute; reflexivity).
  split; [exact Hwf|]. split; [exact Hlib|]. split; [exact Hk|].
  split; [exact Hc|].
  destruct (extractor_completion (nx:=Reference.networkx)
              VertexCover P3 2 3 ["A"; "B"] Hwf Hlib Hk Hc)
    as (_ & _ & _ & -> & _).
  vm_compute. reflexivity.
Defined.

(** C4. The completion step of an extractor strategy runs off the end of
    the fallback list ([IndexError]) exactly when the graph has fewer than
    [num_seeds] nodes; with at least [num_seeds] nodes it ends with exactly
    [num_seeds] entries, although the fallback list holds only the top
    [num_seeds] nodes of the whole-graph degree ranking. *)
Theorem completion_fails_iff {nx : NetworkX} e G num_iterations num_seeds c :
  graph_wf G → library_contract G →
  candidates e G num_seeds = Ok c →
  let nodes_top_degrees := degree_centrality_strategy G 1 num_seeds in
  nodes_top_degrees = take num_seeds (fallback_order G)
  ∧ length nodes_top_degrees = num_seeds `min` len G
  ∧ (complete c num_seeds nodes_top_degrees = Err IndexError
     ↔ len G < num_seeds)
  ∧ (num_seeds ≤ len G →
     ∃ round, complete c num_seeds nodes_top_degrees = Ok round
              ∧ length round = num_seeds)
  ∧ (extractor_strategy e G num_iterations num_seeds = Err IndexError
     ↔ len G < num_seeds).
Proof.
  intros Hwf Hlib Hc top.
  destruct (candidates_facts e G num_seeds c Hwf Hlib Hc) as (Hnd & Hsub & Hlen).
  destruct Hwf as [HG _].
  assert (num_seeds ≤ len G →
          ∃ round, complete c num_seeds top = Ok round
                   ∧ length round = num_seeds) as Hok.
  { intros Hk. eexists. split; [by apply complete_enough_nodes|].
    eapply complete_length. by apply complete_enough_nodes. }
  assert (complete c num_seeds top = Err IndexError ↔ len G < num_seeds)
    as Hiff.
  { split.
    - intros Herr. destruct (decide (len G < num_seeds)) as [|Hge]; [done|].
      destruct Hok as (r & Hr & _); [lia|]. congruence.
    - by apply complete_too_few_nodes. }
  split; [apply nodes_top_degrees_take|].
  split.
  { unfold top. rewrite nodes_top_degrees_take, length_take.
    by rewrite fallback_order_length. }
  split; [exact Hiff|]. split; [exact Hok|].
  rewrite extractor_strategy_unfold, Hc. simpl. fold top.
  rewrite <-Hiff.
  destruct (complete c num_seeds top) as [r|err] eqn:Hr; simpl.
  - unfold replicate_round.
    rewrite decide_True by (by eapply complete_length). done.
  - done.
Qed.

Lemma completion_fails_iff_witness :
  graph_wf P3
  ∧ library_contract (nx:=Reference.networkx) P3
  ∧ candidates (nx:=Reference.networkx) DominatingSet P3 4 = Ok ["A"; "C"]
  ∧ extractor_strategy (nx:=Reference.networkx) DominatingSet P3 2 4
    = Err IndexError.
Proof.
  assert (graph_wf P3) as Hwf by (split; by_computation).
  assert (library_contract (nx:=Reference.networkx) P3) as Hlib
    by (apply reference_contract; vm_compute; reflexivity).
  assert (candidates (nx:=Reference.networkx) DominatingSet P3 4
          = Ok ["A"; "C"]) as Hc by (vm_compute; reflexivity).
  split; [exact Hwf|]. split; [exact Hlib|]. split; [exact Hc|].
  apply (completion_fails_iff (nx:=Reference.networkx)
           DominatingSet P3 2 4 ["A"; "C"] Hwf Hlib Hc).
  vm_compute. lia.
Defined.

(** ** The dominating-set assertion *)

Lemma filter_length_all {A} (P : A → Prop) `{!∀ x, Decision (P x)} (l : list A) :
  length (filter P l) = length l ↔ ∀ x, x ∈ l → P x.
Proof.
  split.
  - intros Hlen x Hx. destruct (decide (P x)) as [|Hn]; [done|].
    pose proof (length_filter_lt P l x Hx Hn). lia.
  - intros Hall. f_equal. induction l as [|x l IH]; [done|].
    rewrite filter_cons, decide_True by (apply Hall; left).
    f_equal. apply IH. intros y Hy. apply Hall. by right.
Qed.

Lemma neighbors_edgeless G u : edgeless G → neighbors G u = [].
Proof.
  induction 1 as [|[v nbrs] G Hv HG IH]; simpl; [done|].
  by case_decide.
Qed.

Lemma dominates_all_nodes G D :
  dominates G D → edgeless G ∨ len G = 1 → ∀ v, v ∈ nodes G → v ∈ D.
Proof.
  intros Hdom Hshape v Hv.
  destruct (decide (v ∈ D)) as [|Hn]; [done|].
  destruct (Hdom v Hv Hn) as (u & Hu & Hadj). exfalso.
  destruct Hshape as [Hedgeless|Hone].
  - rewrite neighbors_edgeless in Hadj by done. by apply elem_of_nil in Hadj.
  - destruct G as [|[w nbrs] [|? ?]]; try done.
    apply list_elem_of_singleton in Hv as ->. simpl in Hadj.
    case_decide as Hwu; [by subst|]. by apply elem_of_nil in Hadj.
Qed.

Section assertion.
Context {nx : NetworkX}.

Lemma dominating_set_candidates_assertion G num_seeds D :
  dominating_set G = Ok D →
  (∀ v, v ∈ nodes G → v ∈ D)
  ↔ dominating_set_candidates G num_seeds = Err AssertionError.
Proof.
  intros HD. unfold dominating_set_candidates. rewrite HD. simpl.
  rewrite remove_nodes_from_nodes.
  pose proof (length_filter (λ v, v ∉ (list_to_set (nodes G) ∖ D : gset node))
                (nodes G)) as Hle.
  pose proof (filter_length_all
                (λ v, v ∉ (list_to_set (nodes G) ∖ D : gset node)) (nodes G))
    as Hall.
  split.
  - intros Hsub. rewrite decide_False; [done|].
    assert (length (filter (λ v, v ∉ (list_to_set (nodes G) ∖ D : gset node))
                      (nodes G)) = length (nodes G)) as ->; [|lia].
    apply Hall. intros v Hv. specialize (Hsub v Hv).
    rewrite elem_of_difference. tauto.
  - case_decide as Hlt; [done|]. intros _ v Hv.
    assert (v ∉ (list_to_set (nodes G) ∖ D : gset node)) as Hnot
      by (apply Hall; [lia|done]).
    destruct (decide (v ∈ D)) as [|HvD]; [done|]. exfalso. apply Hnot.
    apply elem_of_difference. split; [by apply elem_of_list_to_set|done].
Qed.

(** C10. [dominating_set_strategy] stops on its assertion exactly when the
    computed dominating set contains every node of the graph, whatever the
    seed budget; this is the case for every dominating set of a graph with
    no edges and of a graph with a single node. *)
Theorem dominating_set_assertion G num_iterations num_seeds D :
  dominating_set G = Ok D →
  ((∀ v, v ∈ nodes G → v ∈ D)
   ↔ dominating_set_strategy G num_iterations num_seeds = Err AssertionError)
  ∧ (dominates G D → edgeless G ∨ len G = 1 →
     dominating_set_strategy G num_iterations num_seeds = Err AssertionError).
Proof.
  intros HD.
  assert ((∀ v, v ∈ nodes G → v ∈ D)
          ↔ dominating_set_strategy G num_iterations num_seeds
            = Err AssertionError) as Hiff.
  { rewrite (dominating_set_candidates_assertion G num_seeds D HD).
    unfold dominating_set_strategy.
    destruct (dominating_set_candidates G num_seeds) as [c|e]; simpl; [|done].
    split; [done|].
    destruct (complete c num_seeds _) as [r|e] eqn:Hr; simpl.
    - unfold replicate_round.
      rewrite decide_True by (by eapply complete_length). done.
    - apply complete_error in Hr as ->. done. }
  split; [exact Hiff|].
  intros Hdom Hshape. apply Hiff. by apply dominates_all_nodes.
Qed.

End assertion.

Lemma dominating_set_assertion_witness :
  dominating_set (NetworkX:=Reference.networkx) E2 = Ok (list_to_set ["a"; "b"])
  ∧ dominates E2 (list_to_set ["a"; "b"])
  ∧ (edgeless E2 ∨ len E2 = 1)
  ∧ 1 ≤ len E2
  ∧ dominating_set_strategy (nx:=Reference.networkx) E2 50 1 = Err AssertionError.
Proof.
  assert (dominating_set (NetworkX:=Reference.networkx) E2
          = Ok (list_to_set ["a"; "b"])) as HD by (vm_compute; reflexivity).
  assert (dominates E2 (list_to_set ["a"; "b"])) as Hdom.
  { intros v Hv Hn. exfalso. apply Hn. by apply elem_of_list_to_set. }
  assert (edgeless E2 ∨ len E2 = 1) as Hshape by (left; by repeat constructor).
  split; [exact HD|]. split; [exact Hdom|]. split; [exact Hshape|].
  split; [vm_compute; lia|].
  by apply (dominating_set_assertion (nx:=Reference.networkx) E2 50 1 _ HD).
Defined.

(** ** The ranking after extraction *)

(** On a well-formed graph, removing the nodes outside [S] leaves the
    induced subgraph on [S]. *)
Lemma remove_nodes_from_induced G (S : gset node) :
  graph_wf G →
  remove_nodes_from (list_to_set (nodes G) ∖ S) G = induced_subgraph G S.
Proof.
  intros [_ Hclosed]. unfold remove_nodes_from, induced_subgraph.
  assert (∀ w, w ∈ nodes G →
               w ∉ (list_to_set (nodes G) ∖ S : gset node) ↔ w ∈ S) as Hkeep.
  { intros w Hw. rewrite elem_of_difference, elem_of_list_to_set.
    destruct (decide (w ∈ S)); tauto. }
  rewrite (filter_ext_in (λ e, e.1 ∉ (list_to_set (nodes G) ∖ S : gset node))
             (λ e, e.1 ∈ S)).
  2:{ intros e He. apply Hkeep. unfold nodes. by apply list_elem_of_fmap_2. }
  rewrite Forall_forall in Hclosed.
  apply list_fmap_ext. intros i e Hi. f_equal.
  apply list_elem_of_lookup_2, list_elem_of_filter in Hi as [_ He].
  apply filter_ext_in. intros w Hw. apply Hkeep.
  specialize (Hclosed e He). rewrite Forall_forall in Hclosed.
  by apply Hclosed.
Qed.

Lemma size_filter_elem_of (S : gset node) (l : list node) :
  NoDup l → (∀ x, x ∈ S → x ∈ l) → length (filter (λ v, v ∈ S) l) = size S.
Proof.
  intros Hl Hsub. unfold size, set_size. simpl. apply Permutation_length.
  apply NoDup_Permutation; [by apply NoDup_filter|apply NoDup_elements|].
  intros x. rewrite list_elem_of_filter, elem_of_elements.
  split; [by intros [? _]|auto].
Qed.

Lemma induced_subgraph_nodes G S :
  nodes (induced_subgraph G S) = filter (λ v, v ∈ S) (nodes G).
Proof.
  unfold induced_subgraph, nodes.
  induction G as [|e G IH]; [done|].
  rewrite fmap_cons, !filter_cons.
  destruct (decide (e.1 ∈ S)); [|exact IH].
  rewrite !fmap_cons. simpl. f_equal. exact IH.
Qed.

Lemma number_of_nodes_min (n num_seeds : nat) :
  (if decide (n < num_seeds) then n else num_seeds) = num_seeds `min` n.
Proof. case_decide; lia. Qed.

(** C5 (amended). The vertex-cover and dominating-set strategies rank the
    induced subgraph of the graph on the extracted set by degree
    centrality and keep the top [min(k, |S|)] nodes.  The MST strategy
    ranks the spanning tree itself, by the degrees of its own edges, and
    keeps the top [min(k, len(tree))] nodes. *)
Theorem extractor_ranking {nx : NetworkX} G num_seeds :
  graph_wf G →
  (∀ S, min_weighted_vertex_cover G = Ok S →
        vertex_cover_candidates G num_seeds = Ok (rank_induced G S num_seeds))
  ∧ (∀ S, dominating_set G = Ok S → (∃ v, v ∈ nodes G ∧ v ∉ S) →
          dominating_set_candidates G num_seeds
          = Ok (rank_induced G S num_seeds))
  ∧ (∀ S : gset node, (∀ v, v ∈ S → v ∈ nodes G) →
          length (rank_induced G S num_seeds) = num_seeds `min` size S)
  ∧ (∀ T, minimum_spanning_tree G = Ok T →
          mst_candidates G num_seeds
          = Ok (nlargest (num_seeds `min` len T) (degree_centrality T)).*1).
Proof.
  intros Hwf. split; [|split; [|split]].
  - intros S HS. unfold vertex_cover_candidates. rewrite HS. simpl.
    by rewrite remove_nodes_from_induced, number_of_nodes_min.
  - intros S HS (v & Hv & HvS).
    pose proof (dominating_set_candidates_assertion G num_seeds S HS)
      as Hassert.
    revert Hassert. unfold dominating_set_candidates. rewrite HS. simpl.
    case_decide.
    + intros _. by rewrite remove_nodes_from_induced, number_of_nodes_min.
    + intros [_ Hall]. by apply (Hall eq_refl) in Hv.
  - intros S HS. unfold rank_induced.
    rewrite length_fmap, nlargest_length.
    rewrite <-(length_fmap fst (degree_centrality _)), degree_centrality_keys.
    rewrite induced_subgraph_nodes, size_filter_elem_of; [lia|apply Hwf|done].
  - intros T HT. unfold mst_candidates. rewrite HT. simpl.
    by rewrite number_of_nodes_min.
Qed.

Lemma extractor_ranking_witness :
  graph_wf P3
  ∧ min_weighted_vertex_cover (NetworkX:=Reference.networkx) P3
    = Ok (list_to_set ["A"; "B"])
  ∧ vertex_cover_candidates (nx:=Reference.networkx) P3 3
    = Ok (rank_induced P3 (list_to_set ["A"; "B"]) 3).
Proof.
  assert (graph_wf P3) as Hwf by (split; by_computation).
  assert (min_weighted_vertex_cover (NetworkX:=Reference.networkx) P3
          = Ok (list_to_set ["A"; "B"])) as HS by (vm_compute; reflexivity).
  split; [exact Hwf|]. split; [exact HS|].
  by apply (extractor_ranking (nx:=Reference.networkx) P3 3 Hwf).
Defined.

(** C5, as stated, fails for the MST strategy: on the 4-cycle with a chord
    and one seed, the strategy ranks the spanning tree (a - b, a - c,
    b - d) and picks [a]; the induced subgraph on the tree's node set is
    the whole graph, whose top node is [b]. *)
Lemma mst_ranking_counterexample :
  Reference.minimum_spanning_tree C4_chord
  = [("a", ["b"; "c"]); ("b", ["a"; "d"]); ("c", ["a"]); ("d", ["b"])]
  ∧ mst_candidates (nx:=Reference.networkx) C4_chord 1 = Ok ["a"]
  ∧ rank_induced C4_chord
      (list_to_set (nodes (Reference.minimum_spanning_tree C4_chord))) 1
    = ["b"]
  ∧ mst_candidates (nx:=Reference.networkx) C4_chord 1
    ≠ Ok (rank_induced C4_chord
            (list_to_set (nodes (Reference.minimum_spanning_tree C4_chord))) 1).
Proof.
  split; [vm_compute; reflexivity|]. split; [vm_compute; reflexivity|].
  split; [vm_compute; reflexivity|]. vm_compute. intros [=].
Qed.

(** ** The random strategy *)

Section random.
Context {rs : RandomState}.

Lemma choice_ok n k st :
  shuffles → k ≤ n →
  ∃ seed_values st',
    choice n k st = Ok (seed_values, st') ∧ valid_round n k seed_values.
Proof.
  intros Hperm Hk. unfold choice.
  rewrite decide_False by lia. rewrite decide_False by lia.
  specialize (Hperm n st). destruct (permutation n st) as [idx st'].
  simpl in Hperm. exists (take k idx), st'. split; [done|].
  split; [|split].
  - rewrite length_take, Hperm, length_seq. lia.
  - eapply sublist_NoDup; [|apply sublist_take].
    rewrite Hperm. apply NoDup_seq.
  - intros x Hx. eapply elem_of_sublist in Hx; [|apply sublist_take].
    rewrite Hperm in Hx. apply elem_of_seq in Hx. lia.
Qed.

Lemma random_rounds_sampled n num_iterations k acc st :
  shuffles → k ≤ n →
  ∃ rounds st',
    random_rounds n num_iterations k acc st = Ok (acc ++ mjoin rounds, st')
    ∧ sampled n k st rounds st'
    ∧ length rounds = num_iterations
    ∧ Forall (valid_round n k) rounds.
Proof.
  intros Hperm Hk. revert acc st.
  induction num_iterations as [|it IH]; intros acc st; simpl.
  - exists [], st. simpl. rewrite app_nil_r.
    repeat split; [constructor|constructor].
  - destruct (choice_ok n k st Hperm Hk) as (r & st1 & Hr & Hvalid).
    rewrite Hr. simpl.
    destruct (IH (acc ++ r) st1) as (rounds & st2 & Hrest & Hs & Hlen & Hall).
    exists (r :: rounds), st2. simpl. rewrite Hrest, <-app_assoc.
    repeat split; [by econstructor|by rewrite Hlen|by constructor].
Qed.

Lemma random_rounds_acc n num_iterations k acc st :
  random_rounds n num_iterations k acc st =
    '(out, st') ← random_rounds n num_iterations k [] st; Ok (acc ++ out, st').
Proof.
  revert acc st. induction num_iterations as [|it IH]; intros acc st; simpl.
  - by rewrite app_nil_r.
  - destruct (choice n k st) as [[r st1]|e]; simpl; [|done].
    rewrite (IH (acc ++ r)), (IH r).
    destruct (random_rounds n it k [] st1) as [[out st2]|e]; simpl; [|done].
    by rewrite app_assoc.
Qed.

Lemma random_rounds_add n it1 it2 k st :
  random_rounds n (it1 + it2) k [] st =
    '(o1, st1) ← random_rounds n it1 k [] st;
    '(o2, st2) ← random_rounds n it2 k [] st1;
    Ok (o1 ++ o2, st2).
Proof.
  revert st. induction it1 as [|it1 IH]; intros st; simpl.
  - by destruct (random_rounds n it2 k [] st) as [[o2 st2]|e].
  - destruct (choice n k st) as [[r st1]|e]; simpl; [|done].
    rewrite (random_rounds_acc n (it1 + it2)), (random_rounds_acc n it1), IH.
    destruct (random_rounds n it1 k [] st1) as [[o1 st2]|e]; simpl; [|done].
    destruct (random_rounds n it2 k [] st2) as [[o2 st3]|e]; simpl; [|done].
    by rewrite app_assoc.
Qed.

Lemma join_block {A} (rounds : list (list A)) k i r :
  Forall (λ r, length r = k) rounds → rounds !! i = Some r →
  take k (drop (i * k) (mjoin rounds)) = r.
Proof.
  intros Hall. revert i. induction Hall as [|r0 rounds Hr0 Hall IH];
    intros i Hi; [done|].
  change (mjoin (r0 :: rounds)) with (r0 ++ mjoin rounds).
  destruct i as [|i].
  - injection Hi as ->. change (0 * k) with 0.
    change (drop 0 (r ++ mjoin rounds)) with (r ++ mjoin rounds).
    by rewrite take_app_length'.
  - replace (S i * k) with (length r0 + i * k) by lia.
    rewrite drop_app_add. by apply IH.
Qed.

Lemma join_length {A} (rounds : list (list A)) k :
  Forall (λ r, length r = k) rounds → length (mjoin rounds) = length rounds * k.
Proof.
  induction 1 as [|r rounds Hr Hall IH]; [done|].
  simpl. rewrite length_app, IH, Hr. done.
Qed.

Lemma bounded_NoDup_length n (l : list nat) :
  NoDup l → (∀ x, x ∈ l → x < n) → length l ≤ n.
Proof.
  intros Hnd Hlt.
  assert (length l ≤ length (seq 0 n)) as Hle; [|by rewrite length_seq in Hle].
  apply submseteq_length, NoDup_submseteq; [done|].
  intros x Hx. apply elem_of_seq. specialize (Hlt x Hx). lia.
Qed.

End random.

Lemma counter_shuffles : shuffles (rs:=Reference.counter).
Proof.
  intros n st. simpl. unfold rotate.
  rewrite Permutation_app_comm. by rewrite take_drop.
Qed.

(** C7. On a graph with at least [num_seeds] nodes the random strategy
    returns the concatenation of [num_iterations] rounds; every round is a
    block of [num_seeds] distinct node indices below [len(G)], sampled anew
    in the generator state the previous round left; nothing makes the
    rounds disjoint, and when two rounds cannot be disjoint the schedule
    repeats an index. *)
Theorem random_strategy_rounds {rs : RandomState} G num_iterations num_seeds st :
  shuffles → num_seeds ≤ len G →
  ∃ rounds st',
    random_strategy G num_iterations num_seeds st = Ok (mjoin rounds, st')
    ∧ length rounds = num_iterations
    ∧ sampled (len G) num_seeds st rounds st'
    ∧ Forall (valid_round (len G) num_seeds) rounds
    ∧ length (mjoin rounds) = num_iterations * num_seeds
    ∧ (∀ i r, rounds !! i = Some r →
              take num_seeds (drop (i * num_seeds) (mjoin rounds)) = r)
    ∧ (2 ≤ num_iterations → len G < 2 * num_seeds → ¬ NoDup (mjoin rounds)).
Proof.
  intros Hperm Hk. unfold random_strategy.
  destruct (random_rounds_sampled (len G) num_iterations num_seeds [] st
              Hperm Hk) as (rounds & st' & Hrun & Hs & Hlen & Hall).
  exists rounds, st'.
  assert (Forall (λ r, length r = num_seeds) rounds) as Hlens.
  { eapply Forall_impl; [exact Hall|]. by intros r [? _]. }
  split; [exact Hrun|]. split; [exact Hlen|]. split; [exact Hs|].
  split; [exact Hall|]. split; [by rewrite (join_length _ _ Hlens), Hlen|].
  split; [intros i r; by apply join_block|].
  intros Hit Hn Hnd.
  destruct rounds as [|r1 [|r2 rounds]]; simpl in Hlen; try lia.
  apply Forall_cons in Hall as [(Hl1 & _ & Hb1) Hall].
  apply Forall_cons in Hall as [(Hl2 & _ & Hb2) _].
  change (NoDup (r1 ++ r2 ++ mjoin rounds)) in Hnd.
  rewrite app_assoc in Hnd. apply NoDup_app in Hnd as [Hnd _].
  assert (length (r1 ++ r2) ≤ len G) as Hle.
  { apply bounded_NoDup_length; [done|].
    intros x [?|?]%elem_of_app; auto. }
  rewrite length_app in Hle. lia.
Qed.

Lemma random_strategy_rounds_witness :
  shuffles (rs:=Reference.counter)
  ∧ 2 ≤ len P3
  ∧ random_strategy (rs:=Reference.counter) P3 3 2 (0 : nat)
    = Ok ([0; 1; 1; 2; 2; 0], 3).
Proof.
  split; [exact counter_shuffles|]. split; [vm_compute; lia|].
  destruct (random_strategy_rounds (rs:=Reference.counter) P3 3 2 (0 : nat)
              counter_shuffles) as (rounds & st' & _); [vm_compute; lia|].
  vm_compute. reflexivity.
Defined.

(** ** The generator of the random strategy *)

(** [random_strategy] reads the graph for its node count only, and a run
    of [it1 + it2] rounds is a run of [it1] rounds followed, in the
    generator state that run left, by a run of [it2] rounds. *)
Lemma random_strategy_continues {rs : RandomState} G1 G2 it1 it2 num_seeds st :
  len G1 = len G2 →
  random_strategy G1 it1 num_seeds st = random_strategy G2 it1 num_seeds st
  ∧ random_strategy G1 (it1 + it2) num_seeds st =
      '(o1, st1) ← random_strategy G1 it1 num_seeds st;
      '(o2, st2) ← random_strategy G1 it2 num_seeds st1;
      Ok (o1 ++ o2, st2).
Proof.
  intros Hlen. unfold random_strategy. split; [by rewrite Hlen|].
  apply random_rounds_add.
Qed.

(** Two runs of [random_strategy(G, 1, 1)] with the counter generator, the
    second in the state the first one left. *)
Example random_strategy_successive_runs :
  random_strategy (rs:=Reference.counter) K2 1 1 (0 : nat) = Ok ([0], 1)
  ∧ random_strategy (rs:=Reference.counter) K2 1 1 (1 : nat) = Ok ([1], 2).
Proof. split; vm_compute; reflexivity. Qed.

(** ** Dispatch *)

Section dispatch.
Context {nx : NetworkX} {rs : RandomState}.

Lemma strategy_tags_cases s :
  s ∈ strategy_tags →
  s = "r" ∨ s ∈ ranker_tags ∨ s = "m" ∨ s = "s" ∨ s = "v".
Proof.
  unfold strategy_tags, ranker_tags. rewrite !elem_of_cons, elem_of_nil.
  tauto.
Qed.

Lemma run_strategy_ranker s G num_iterations num_seeds st :
  s ∈ ranker_tags →
  run_strategy s G num_iterations num_seeds st =
    sm ← ranker_scores s G;
    Ok (NodeId <$> list_mul (nlargest num_seeds sm).*1 num_iterations, st).
Proof.
  unfold ranker_tags. rewrite !elem_of_cons, elem_of_nil.
  intros [->|[->|[->|[->|[->|[]]]]]].
  - done.
  - change (run_strategy "e" G num_iterations num_seeds st)
      with (deterministic
              (eigenvector_centrality_strategy G num_iterations num_seeds) st).
    unfold eigenvector_centrality_strategy, ranker_scores. simpl.
    by destruct (eigenvector_centrality G).
  - change (run_strategy "b" G num_iterations num_seeds st)
      with (deterministic
              (betweenness_centrality_strategy G num_iterations num_seeds) st).
    unfold betweenness_centrality_strategy, ranker_scores. simpl.
    by destruct (betweenness_centrality G).
  - change (run_strategy "c" G num_iterations num_seeds st)
      with (deterministic
              (clustering_coefficient_strategy G num_iterations num_seeds) st).
    unfold clustering_coefficient_strategy, ranker_scores. simpl.
    by destruct (clustering G).
  - change (run_strategy "k" G num_iterations num_seeds st)
      with (deterministic
              (katz_centrality_strategy G num_iterations num_seeds) st).
    unfold katz_centrality_strategy, ranker_scores. simpl.
    by destruct (katz_centrality G).
Qed.

Lemma run_strategy_extractor e G num_iterations num_seeds st :
  run_strategy (extractor_tag e) G num_iterations num_seeds st
  = deterministic (extractor_strategy e G num_iterations num_seeds) st.
Proof. by destruct e. Qed.

Lemma ranker_scores_keyed s G sm :
  s ∈ ranker_tags → library_contract G → ranker_scores s G = Ok sm →
  sm.*1 ≡ₚ nodes G.
Proof.
  unfold ranker_tags. rewrite !elem_of_cons, elem_of_nil.
  intros Hs (Hb & He & Hk & Hc & _).
  destruct Hs as [->|[->|[->|[->|[->|[]]]]]]; unfold ranker_scores; simpl.
  - intros [= <-]. by rewrite degree_centrality_keys.
  - apply He.
  - apply Hb.
  - apply Hc.
  - apply Hk.
Qed.

Lemma ranker_scores_return s G :
  s ∈ ranker_tags → library_returns s G → is_Ok (ranker_scores s G).
Proof.
  unfold ranker_tags. rewrite !elem_of_cons, elem_of_nil.
  intros [->|[->|[->|[->|[->|[]]]]]]; unfold ranker_scores, library_returns;
    simpl; try done.
  intros _. by eexists.
Qed.

Lemma candidates_return e G num_seeds :
  library_returns (extractor_tag e) G → is_Ok (candidates e G num_seeds).
Proof.
  destruct e; unfold library_returns; simpl.
  - intros [T HT]. unfold mst_candidates. rewrite HT. by eexists.
  - intros (D & HD & v & Hv & HvD).
    pose proof (dominating_set_candidates_assertion G num_seeds D HD)
      as Hassert.
    revert Hassert. unfold dominating_set_candidates. rewrite HD. simpl.
    case_decide; [by eexists|].
    intros [_ Hall]. by apply (Hall eq_refl) in Hv.
  - intros [S HS]. unfold vertex_cover_candidates. rewrite HS. by eexists.
Qed.

Lemma keyed_length (sm : ScoreMap) G : sm.*1 ≡ₚ nodes G → length sm = len G.
Proof.
  intros Hperm. apply Permutation_length in Hperm.
  unfold nodes in Hperm. rewrite !length_fmap in Hperm. done.
Qed.

End dispatch.

Section schedules.
Context {nx : NetworkX} {rs : RandomState}.

(** C1. For each of the nine strategy letters and every graph with at
    least [num_seeds] nodes, the schedule that the strategy returns has
    length [num_seeds * num_iterations]; and the strategy does return one
    whenever its library calls return and, for the dominating-set
    strategy, the assertion on the dominating set holds. *)
Theorem schedule_length s G num_iterations num_seeds st :
  s ∈ strategy_tags → graph_wf G → library_contract G → shuffles →
  num_seeds ≤ len G →
  (∀ output st', run_strategy s G num_iterations num_seeds st = Ok (output, st') →
                 length output = num_seeds * num_iterations)
  ∧ (library_returns s G →
     is_Ok (run_strategy s G num_iterations num_seeds st)).
Proof.
  intros Hs Hwf Hlib Hperm Hk.
  assert (∀ e, s = extractor_tag e →
    (∀ output st', run_strategy s G num_iterations num_seeds st
                   = Ok (output, st') →
                   length output = num_seeds * num_iterations)
    ∧ (library_returns s G →
       is_Ok (run_strategy s G num_iterations num_seeds st))) as Hextractor.
  { intros e ->. rewrite run_strategy_extractor. unfold deterministic.
    split.
    - intros output st'.
      destruct (candidates e G num_seeds) as [c|err] eqn:Hc.
      + destruct (extractor_round_ok e G num_iterations num_seeds c
                    Hwf Hlib Hk Hc) as (_ & -> & Hlen & _).
        simpl. intros [= <- _].
        by rewrite length_fmap, list_mul_length, Hlen.
      + rewrite extractor_strategy_unfold, Hc. done.
    - intros Hret.
      destruct (candidates_return e G num_seeds Hret) as [c Hc].
      destruct (extractor_round_ok e G num_iterations num_seeds c
                  Hwf Hlib Hk Hc) as (_ & -> & _).
      by eexists. }
  apply strategy_tags_cases in Hs as [->|[Hs|[->|[->| ->]]]].
  - change (run_strategy "r" G num_iterations num_seeds st)
      with ('(output, st') ← random_strategy G num_iterations num_seeds st;
            Ok (NodeIndex <$> (output : list nat), st')).
    destruct (random_rounds_sampled (len G) num_iterations num_seeds [] st
                Hperm Hk) as (rounds & st1 & Hrun & _ & Hlen & Hall).
    unfold random_strategy. rewrite Hrun. simpl. split; [|by eexists].
    intros output st' [= <- _]. rewrite length_fmap.
    rewrite (join_length rounds num_seeds), Hlen; [lia|].
    eapply Forall_impl; [exact Hall|]. by intros r [? _].
  - rewrite run_strategy_ranker by done. split.
    + intros output st'.
      destruct (ranker_scores s G) as [sm|err] eqn:Hsm; [|done].
      simpl. intros [= <- _].
      rewrite length_fmap, list_mul_length, length_fmap, nlargest_length.
      rewrite (keyed_length sm G) by (by eapply ranker_scores_keyed).
      by rewrite Nat.min_l.
    + intros Hret.
      destruct (ranker_scores_return s G Hs Hret) as [sm ->]. by eexists.
  - by apply (Hextractor MST).
  - by apply (Hextractor DominatingSet).
  - by apply (Hextractor VertexCover).
Qed.

(** The replication of the round of a deterministic strategy. *)
Lemma deterministic_replicated (f : nat → result (list node)) st num_iterations :
  (∀ n, f n = r ← f 1; Ok (list_mul r n)) →
  deterministic (f num_iterations) st =
    '(round, st') ← deterministic (f 1) st;
    Ok (list_mul round num_iterations, st').
Proof.
  intros Hf. rewrite (Hf num_iterations). unfold deterministic.
  destruct (f 1) as [r|e]; simpl; [|done].
  by rewrite list_mul_fmap.
Qed.

Lemma extractor_strategy_replicated e G num_seeds n :
  extractor_strategy e G n num_seeds =
    r ← extractor_strategy e G 1 num_seeds; Ok (list_mul r n).
Proof.
  rewrite !extractor_strategy_unfold.
  destruct (candidates e G num_seeds) as [c|err]; simpl; [|done].
  destruct (complete c num_seeds _) as [r|err]; simpl; [|done].
  unfold replicate_round. case_decide; simpl; [|done].
  by rewrite list_mul_1.
Qed.

(** C6. For every strategy letter except the random one, the schedule is
    the schedule of a single round repeated [num_iterations] times, so
    each of its [num_iterations] blocks is that round. *)
Theorem deterministic_replication s G num_iterations num_seeds st :
  s ∈ strategy_tags → s ≠ "r" →
  run_strategy s G num_iterations num_seeds st =
    ('(round, st') ← run_strategy s G 1 num_seeds st;
     Ok (list_mul round num_iterations, st'))
  ∧ (∀ output st',
       run_strategy s G num_iterations num_seeds st = Ok (output, st') →
       ∃ round,
         run_strategy s G 1 num_seeds st = Ok (round, st')
         ∧ st' = st
         ∧ output = list_mul round num_iterations
         ∧ ∀ i, i < num_iterations →
                take (length round) (drop (i * length round) output) = round).
Proof.
  intros Hs Hr.
  assert (run_strategy s G num_iterations num_seeds st =
            ('(round, st') ← run_strategy s G 1 num_seeds st;
             Ok (list_mul round num_iterations, st'))
          ∧ ∀ round st', run_strategy s G 1 num_seeds st = Ok (round, st') →
                         st' = st) as [Heq Hst].
  { assert (∀ e, s = extractor_tag e →
      run_strategy s G num_iterations num_seeds st =
        ('(round, st') ← run_strategy s G 1 num_seeds st;
         Ok (list_mul round num_iterations, st'))
      ∧ ∀ round st', run_strategy s G 1 num_seeds st = Ok (round, st') →
                     st' = st) as Hextractor.
    { intros e ->. rewrite !run_strategy_extractor. split.
      - apply (deterministic_replicated
                 (λ n, extractor_strategy e G n num_seeds)).
        intros n. apply extractor_strategy_replicated.
      - intros round st'. unfold deterministic.
        destruct (extractor_strategy e G 1 num_seeds); simpl; congruence. }
    apply strategy_tags_cases in Hs as [->|[Hs|[->|[->| ->]]]]; [done| |..].
    - rewrite !run_strategy_ranker by done.
      destruct (ranker_scores s G) as [sm|err]; simpl; [|done].
      split; [|congruence].
      by rewrite list_mul_1, list_mul_fmap.
    - by apply (Hextractor MST).
    - by apply (Hextractor DominatingSet).
    - by apply (Hextractor VertexCover). }
  split; [exact Heq|].
  intros output st' Hrun. rewrite Heq in Hrun.
  destruct (run_strategy s G 1 num_seeds st) as [[round st1]|err] eqn:Hone;
    [|done].
  simpl in Hrun. injection Hrun as <- <-.
  exists round. split; [done|]. split; [by eapply Hst|]. split; [done|].
  intros i Hi. by apply list_mul_block.
Qed.

(** C2 (amended). On a graph with fewer than [num_seeds] nodes a ranker
    strategy (degree, betweenness, eigenvector, Katz, clustering) raises
    nothing of its own: whenever the score computation returns, it returns
    the schedule of a shorter round, which is the ranking of all the nodes
    of the graph: the entries of the score dictionary by descending score,
    entries of equal score in the order of the dictionary, each node once.
    Its only failures are those of the score computation. *)
Theorem rankers_return_short_list s G num_iterations num_seeds st :
  s ∈ ranker_tags → library_contract G → len G < num_seeds →
  match run_strategy s G num_iterations num_seeds st with
  | Ok (output, st') =>
      ∃ sm ranking,
        ranker_scores s G = Ok sm
        ∧ ranking = sorted_desc sm
        ∧ ranking ≡ₚ sm
        ∧ StronglySorted descending ranking
        ∧ (∀ q, filter (λ e, Qeq_bool e.2 q = true) ranking
                = filter (λ e, Qeq_bool e.2 q = true) sm)
        ∧ ranking.*1 ≡ₚ nodes G
        ∧ length ranking = len G
        ∧ output = NodeId <$> list_mul ranking.*1 num_iterations
        ∧ length output = len G * num_iterations
        ∧ st' = st
  | Err e => ranker_scores s G = Err e
  end.
Proof.
  intros Hs Hlib Hk. rewrite run_strategy_ranker by done.
  destruct (ranker_scores s G) as [sm|err] eqn:Hsm; simpl; [|done].
  pose proof (ranker_scores_keyed s G sm Hs Hlib Hsm) as Hkeys.
  pose proof (keyed_length sm G Hkeys) as Hlen.
  rewrite nlargest_all by lia.
  exists sm, (sorted_desc sm). split; [done|]. split; [done|].
  split; [apply sorted_desc_perm|]. split; [apply sorted_desc_sorted|].
  split; [intros q; apply sorted_desc_stable|].
  split; [by rewrite sorted_desc_keys|].
  split; [by rewrite sorted_desc_length|].
  split; [done|]. split; [|done].
  rewrite length_fmap, list_mul_length, length_fmap, sorted_desc_length.
  by rewrite Hlen.
Qed.

End schedules.

(** ** Instances of the schedule theorems *)

Lemma schedule_length_witness :
  "v" ∈ strategy_tags
  ∧ graph_wf P3
  ∧ library_contract (nx:=Reference.networkx) P3
  ∧ shuffles (rs:=Reference.counter)
  ∧ 3 ≤ len P3
  ∧ library_returns (nx:=Reference.networkx) "v" P3
  ∧ ∃ output,
      run_strategy (nx:=Reference.networkx) (rs:=Reference.counter)
        "v" P3 2 3 (0 : nat) = Ok (output, 0)
      ∧ length output = 3 * 2.
Proof.
  assert ("v" ∈ strategy_tags) as Hs by by_computation.
  assert (graph_wf P3) as Hwf by (split; by_computation).
  assert (library_contract (nx:=Reference.networkx) P3) as Hlib
    by (apply reference_contract; vm_compute; reflexivity).
  assert (3 ≤ len P3) as Hk by (vm_compute; lia).
  assert (library_returns (nx:=Reference.networkx) "v" P3) as Hret
    by (vm_compute; by eexists).
  split; [exact Hs|]. split; [exact Hwf|]. split; [exact Hlib|].
  split; [exact counter_shuffles|]. split; [exact Hk|]. split; [exact Hret|].
  destruct (schedule_length (nx:=Reference.networkx) (rs:=Reference.counter)
              "v" P3 2 3 (0 : nat) Hs Hwf Hlib counter_shuffles Hk)
    as [Hlen _].
  eexists. split; [vm_compute; reflexivity|].
  eapply Hlen. vm_compute. reflexivity.
Defined.

Lemma deterministic_replication_witness :
  "m" ∈ strategy_tags
  ∧ "m" ≠ "r"
  ∧ run_strategy (nx:=Reference.networkx) (rs:=Reference.counter)
      "m" C4_chord 3 2 (0 : nat)
    = ('(round, st') ← run_strategy (nx:=Reference.networkx)
                         (rs:=Reference.counter) "m" C4_chord 1 2 (0 : nat);
       Ok (list_mul round 3, st')).
Proof.
  assert ("m" ∈ strategy_tags) as Hs by by_computation.
  assert ("m" ≠ "r") as Hr by (intros [=]).
  split; [exact Hs|]. split; [exact Hr|].
  apply (deterministic_replication (nx:=Reference.networkx)
           (rs:=Reference.counter) "m" C4_chord 3 2 (0 : nat) Hs Hr).
Defined.

Lemma rankers_return_short_list_witness :
  "c" ∈ ranker_tags
  ∧ library_contract (nx:=Reference.networkx) K2
  ∧ len K2 < 3
  ∧ match run_strategy (nx:=Reference.networkx) (rs:=Reference.counter)
            "c" K2 2 3 (0 : nat) with
    | Ok (output, st') =>
        ∃ sm ranking,
          ranker_scores (nx:=Reference.networkx) "c" K2 = Ok sm
          ∧ ranking = sorted_desc sm
          ∧ ranking ≡ₚ sm
          ∧ StronglySorted descending ranking
          ∧ (∀ q, filter (λ e, Qeq_bool e.2 q = true) ranking
                  = filter (λ e, Qeq_bool e.2 q = true) sm)
          ∧ ranking.*1 ≡ₚ nodes K2
          ∧ length ranking = len K2
          ∧ output = NodeId <$> list_mul ranking.*1 2
          ∧ length output = len K2 * 2
          ∧ st' = 0
    | Err e => ranker_scores (nx:=Reference.networkx) "c" K2 = Err e
    end.
Proof.
  assert ("c" ∈ ranker_tags) as Hs by by_computation.
  assert (library_contract (nx:=Reference.networkx) K2) as Hlib
    by (apply reference_contract; vm_compute; reflexivity).
  assert (len K2 < 3) as Hk by (vm_compute; lia).
  split; [exact Hs|]. split; [exact Hlib|]. split; [exact Hk|].
  apply (rankers_return_short_list (nx:=Reference.networkx)
           (rs:=Reference.counter) "c" K2 2 3 (0 : nat) Hs Hlib Hk).
Defined.

(** C2, as stated, fails: on the one-edge graph with three seeds asked
    for, the degree and clustering strategies return the two nodes and
    raise nothing. *)
Lemma ranker_short_graph_counterexample :
  len K2 < 3
  ∧ degree_centrality_strategy K2 1 3 = ["a"; "b"]
  ∧ run_strategy (nx:=Reference.networkx) (rs:=Reference.counter)
      "d" K2 1 3 (0 : nat) = Ok ([NodeId "a"; NodeId "b"], 0)
  ∧ run_strategy (nx:=Reference.networkx) (rs:=Reference.counter)
      "c" K2 1 3 (0 : nat) = Ok ([NodeId "a"; NodeId "b"], 0).
Proof.
  split; [vm_compute; lia|]. repeat split; vm_compute; reflexivity.
Qed.

(** ** Tie-break of the rankers *)






(** * Further properties of the strategies *)

(** ** The padding loop, continued *)

Lemma complete_elements (node_keys : list node) num_seeds rest r :
  complete node_keys num_seeds rest = Ok r →
  ∀ x, x ∈ r → x ∈ node_keys ∨ x ∈ rest.
Proof.
  revert node_keys. induction rest as [|y rest IH]; intros c; simpl.
  - destruct (decide (length c ≠ num_seeds)); [done|].
    intros [= <-] x Hx. by left.
  - destruct (decide (length c ≠ num_seeds)).
    + intros Hr x Hx. destruct (IH _ Hr x Hx) as [Hin|Hin].
      * destruct (decide (y ∉ c)); [|by left].
        apply elem_of_app in Hin as [?|Hin]; [by left|].
        apply list_elem_of_singleton in Hin as ->. right. left.
      * right. by right.
    + intros [= <-] x Hx. by left.
Qed.

Lemma complete_NoDup (node_keys : list node) num_seeds rest r :
  NoDup node_keys → complete node_keys num_seeds rest = Ok r → NoDup r.
Proof.
  revert node_keys. induction rest as [|y rest IH]; intros c Hc; simpl.
  - destruct (decide (length c ≠ num_seeds)); [done|]. by intros [= <-].
  - destruct (decide (length c ≠ num_seeds)); [|by intros [= <-]].
    apply IH. destruct (decide (y ∉ c)); [|done].
    apply NoDup_app. split; [done|]. split; [|apply NoDup_singleton].
    intros x Hx ->%list_elem_of_singleton. done.
Qed.

Lemma complete_prefix (node_keys : list node) num_seeds rest r :
  complete node_keys num_seeds rest = Ok r → node_keys `prefix_of` r.
Proof.
  revert node_keys. induction rest as [|y rest IH]; intros c; simpl.
  - destruct (decide (length c ≠ num_seeds)); [done|]. by intros [= <-].
  - destruct (decide (length c ≠ num_seeds)); [|by intros [= <-]].
    intros Hr. apply IH in Hr. destruct (decide (y ∉ c)); [|done].
    etrans; [|exact Hr]. by apply prefix_app_r.
Qed.

(** X8. The completion step is idempotent: a completed round is returned
    unchanged when it is completed again, whatever the fallback list. *)
Theorem complete_idempotent (node_keys : list node) num_seeds rest rest' r :
  complete node_keys num_seeds rest = Ok r →
  complete r num_seeds rest' = Ok r.
Proof.
  intros Hr. apply complete_length in Hr.
  destruct rest'; simpl; by rewrite decide_False by lia.
Qed.

Lemma complete_idempotent_witness :
  complete ["B"] 3 ["B"; "A"; "C"] = Ok ["B"; "A"; "C"]
  ∧ complete ["B"; "A"; "C"] 3 ["B"; "A"; "C"] = Ok ["B"; "A"; "C"].
Proof.
  assert (complete ["B"] 3 ["B"; "A"; "C"] = Ok ["B"; "A"; "C"]) as Hr
    by (vm_compute; reflexivity).
  split; [exact Hr|].
  exact (complete_idempotent ["B"] 3 ["B"; "A"; "C"] ["B"; "A"; "C"] _ Hr).
Defined.

Section extractor_rounds.
Context {nx : NetworkX}.

(** The candidates are nodes of the graph, under the library contract
    alone. *)
Lemma candidates_nodes e G num_seeds c :
  NoDup (nodes G) → library_contract G → candidates e G num_seeds = Ok c →
  NoDup c ∧ ∀ x, x ∈ c → x ∈ nodes G.
Proof.
  intros Hnd (_ & _ & _ & _ & Hmst) Hc.
  destruct e; simpl in Hc.
  - unfold mst_candidates in Hc.
    destruct (minimum_spanning_tree G) as [T|] eqn:HT; [|done].
    simpl in Hc. injection Hc as <-. specialize (Hmst T eq_refl).
    edestruct (ranked_keys_facts T) as (Hc1 & Hc2 & _); [by rewrite Hmst|].
    split; [exact Hc1|]. intros x Hx. rewrite <-Hmst. by apply Hc2.
  - unfold dominating_set_candidates in Hc.
    destruct (dominating_set G) as [D|] eqn:HD; [|done].
    simpl in Hc. case_decide; [|done]. injection Hc as <-.
    edestruct (ranked_keys_facts
                 (remove_nodes_from (list_to_set (nodes G) ∖ D) G))
      as (Hc1 & Hc2 & _).
    { rewrite remove_nodes_from_nodes. by apply NoDup_filter. }
    split; [exact Hc1|]. intros x Hx. apply Hc2 in Hx.
    rewrite remove_nodes_from_nodes in Hx.
    by apply list_elem_of_filter in Hx as [_ ?].
  - unfold vertex_cover_candidates in Hc.
    destruct (min_weighted_vertex_cover G) as [D|] eqn:HD; [|done].
    simpl in Hc. injection Hc as <-.
    edestruct (ranked_keys_facts
                 (remove_nodes_from (list_to_set (nodes G) ∖ D) G))
      as (Hc1 & Hc2 & _).
    { rewrite remove_nodes_from_nodes. by apply NoDup_filter. }
    split; [exact Hc1|]. intros x Hx. apply Hc2 in Hx.
    rewrite remove_nodes_from_nodes in Hx.
    by apply list_elem_of_filter in Hx as [_ ?].
Qed.

(** What an extractor strategy returns, when it returns. *)
Lemma extractor_round_facts e G num_iterations num_seeds output :
  NoDup (nodes G) → library_contract G →
  extractor_strategy e G num_iterations num_seeds = Ok output →
  ∃ c round,
    candidates e G num_seeds = Ok c
    ∧ c `prefix_of` round
    ∧ output = list_mul round num_iterations
    ∧ length round = num_seeds
    ∧ NoDup round
    ∧ (∀ v, v ∈ round → v ∈ nodes G)
    ∧ num_seeds ≤ len G.
Proof.
  intros Hnd Hlib. rewrite extractor_strategy_unfold.
  destruct (candidates e G num_seeds) as [c|err] eqn:Hc; simpl; [|done].
  destruct (candidates_nodes e G num_seeds c Hnd Hlib Hc) as [Hc1 Hc2].
  destruct (complete c num_seeds _) as [r|err] eqn:Hr; simpl; [|done].
  pose proof (complete_length _ _ _ _ Hr) as Hlen.
  unfold replicate_round. rewrite decide_True by done. intros [= <-].
  assert (∀ v, v ∈ r → v ∈ nodes G) as Hsub.
  { intros v Hv. destruct (complete_elements _ _ _ _ Hr v Hv) as [?|Hin];
      [auto|].
    rewrite nodes_top_degrees_take in Hin.
    eapply elem_of_sublist in Hin; [|apply sublist_take].
    by rewrite fallback_order_perm in Hin. }
  assert (NoDup r) as Hr1 by by eapply complete_NoDup.
  exists c, r. split; [done|]. split; [by eapply complete_prefix|].
  split; [done|]. split; [done|]. split; [done|]. split; [done|].
  rewrite <-Hlen. unfold len. rewrite <-(length_fmap fst G).
  apply submseteq_length, NoDup_submseteq; done.
Qed.

(** X5. Whenever an extractor strategy returns a schedule, the schedule is
    one round repeated; the round has exactly [num_seeds] entries, all
    distinct, all nodes of the graph, and it starts with the ranked
    candidates. *)
Theorem extractor_schedule_valid e G num_iterations num_seeds output :
  NoDup (nodes G) → library_contract G →
  extractor_strategy e G num_iterations num_seeds = Ok output →
  ∃ c round,
    candidates e G num_seeds = Ok c
    ∧ c `prefix_of` round
    ∧ output = list_mul round num_iterations
    ∧ length round = num_seeds
    ∧ NoDup round
    ∧ (∀ v, v ∈ round → v ∈ nodes G)
    ∧ num_seeds ≤ len G.
Proof. apply extractor_round_facts. Qed.

(** X7. The closing assertion of an extractor strategy never fires: when a
    strategy fails, either the computation of its candidates failed with
    that error (a library error, or the dominating-set assertion), or the
    padding loop ran off the end of the fallback list. *)
Theorem extractor_strategy_errors e G num_iterations num_seeds err :
  extractor_strategy e G num_iterations num_seeds = Err err →
  candidates e G num_seeds = Err err
  ∨ (err = IndexError ∧ ∃ c, candidates e G num_seeds = Ok c
                             ∧ length c ≠ num_seeds).
Proof.
  rewrite extractor_strategy_unfold.
  destruct (candidates e G num_seeds) as [c|err'] eqn:Hc; simpl;
    [|intros [= ->]; by left].
  destruct (complete c num_seeds _) as [r|err'] eqn:Hr; simpl.
  - unfold replicate_round.
    rewrite decide_True by (by eapply complete_length). done.
  - intros [= ->]. right. split; [by eapply complete_error|].
    exists c. split; [done|]. intros Hlen.
    destruct (degree_centrality_strategy G 1 num_seeds); simpl in Hr;
      by rewrite decide_False in Hr by lia.
Qed.

(** X6. An extractor strategy whose ranked candidates already number
    [num_seeds] returns them as they are.  This is always so for the MST
    strategy on a graph with at least [num_seeds] nodes, because the
    spanning tree keeps every node: its padding loop never appends. *)
Theorem full_candidates_unpadded e G num_iterations num_seeds c :
  candidates e G num_seeds = Ok c →
  length c = num_seeds
  ∨ (e = MST ∧ library_contract G ∧ num_seeds ≤ len G) →
  length c = num_seeds
  ∧ extractor_strategy e G num_iterations num_seeds
    = Ok (list_mul c num_iterations).
Proof.
  intros Hc Hfull.
  assert (length c = num_seeds) as Hlen.
  { destruct Hfull as [Hlen|(-> & (_ & _ & _ & _ & Hmst) & Hk)]; [done|].
    simpl in Hc. unfold mst_candidates in Hc.
    destruct (minimum_spanning_tree G) as [T|] eqn:HT; [|done].
    simpl in Hc. injection Hc as <-. specialize (Hmst T eq_refl).
    assert (len T = len G) as HlenT.
    { apply Permutation_length in Hmst. unfold nodes in Hmst.
      by rewrite !length_fmap in Hmst. }
    rewrite number_of_nodes_min, length_fmap, nlargest_length.
    rewrite <-(length_fmap fst (degree_centrality T)), degree_centrality_keys.
    unfold nodes. rewrite length_fmap. fold (len T). lia. }
  split; [exact Hlen|].
  rewrite extractor_strategy_unfold, Hc. simpl.
  assert (complete c num_seeds (degree_centrality_strategy G 1 num_seeds)
          = Ok c) as ->.
  { destruct (degree_centrality_strategy G 1 num_seeds); simpl;
      by rewrite decide_False by lia. }
  simpl. unfold replicate_round. by rewrite decide_True.
Qed.

End extractor_rounds.

Lemma extractor_schedule_valid_witness :
  NoDup (nodes P3)
  ∧ library_contract (nx:=Reference.networkx) P3
  ∧ extractor_strategy (nx:=Reference.networkx) DominatingSet P3 2 3
    = Ok ["A"; "C"; "B"; "A"; "C"; "B"]
  ∧ ∃ c round,
      candidates (nx:=Reference.networkx) DominatingSet P3 3 = Ok c
      ∧ c `prefix_of` round
      ∧ ["A"; "C"; "B"; "A"; "C"; "B"] = list_mul round 2
      ∧ length round = 3
      ∧ NoDup round
      ∧ (∀ v, v ∈ round → v ∈ nodes P3)
      ∧ 3 ≤ len P3.
Proof.
  assert (NoDup (nodes P3)) as Hnd by by_computation.
  assert (library_contract (nx:=Reference.networkx) P3) as Hlib
    by (apply reference_contract; vm_compute; reflexivity).
  assert (extractor_strategy (nx:=Reference.networkx) DominatingSet P3 2 3
          = Ok ["A"; "C"; "B"; "A"; "C"; "B"]) as Hrun
    by (vm_compute; reflexivity).
  split; [exact Hnd|]. split; [exact Hlib|]. split; [exact Hrun|].
  exact (extractor_schedule_valid (nx:=Reference.networkx)
           DominatingSet P3 2 3 _ Hnd Hlib Hrun).
Defined.

Lemma extractor_strategy_errors_witness :
  extractor_strategy (nx:=Reference.networkx) VertexCover P3 2 4
  = Err IndexError
  ∧ (candidates (nx:=Reference.networkx) VertexCover P3 4 = Err IndexError
     ∨ (IndexError = IndexError
        ∧ ∃ c, candidates (nx:=Reference.networkx) VertexCover P3 4 = Ok c
               ∧ length c ≠ 4)).
Proof.
  assert (extractor_strategy (nx:=Reference.networkx) VertexCover P3 2 4
          = Err IndexError) as Hrun by (vm_compute; reflexivity).
  split; [exact Hrun|].
  exact (extractor_strategy_errors (nx:=Reference.networkx)
           VertexCover P3 2 4 IndexError Hrun).
Defined.

Lemma full_candidates_unpadded_witness :
  candidates (nx:=Reference.networkx) MST C4_chord 2 = Ok ["a"; "b"]
  ∧ (length ["a"; "b"] = 2
     ∨ (MST = MST ∧ library_contract (nx:=Reference.networkx) C4_chord
        ∧ 2 ≤ len C4_chord))
  ∧ extractor_strategy (nx:=Reference.networkx) MST C4_chord 3 2
    = Ok ["a"; "b"; "a"; "b"; "a"; "b"].
Proof.
  assert (candidates (nx:=Reference.networkx) MST C4_chord 2
          = Ok ["a"; "b"]) as Hc by (vm_compute; reflexivity).
  assert (length ["a"; "b"] = 2
          ∨ (MST = MST ∧ library_contract (nx:=Reference.networkx) C4_chord
             ∧ 2 ≤ len C4_chord)) as Hfull.
  { right. split; [reflexivity|]. split; [|vm_compute; lia].
    apply reference_contract. vm_compute. reflexivity. }
  split; [exact Hc|]. split; [exact Hfull|].
  exact (proj2 (full_candidates_unpadded (nx:=Reference.networkx)
                  MST C4_chord 3 2 _ Hc Hfull)).
Defined.

(** ** Rankers: what a round holds *)

Lemma elem_of_list_mul {A} (l : list A) n x :
  x ∈ list_mul l n ↔ x ∈ l ∧ 0 < n.
Proof.
  induction n as [|n IH].
  - split; [by intros ?%elem_of_nil|]. intros [_ ?]. lia.
  - rewrite list_mul_S, elem_of_app, IH. split; [|tauto].
    intros [?|[? _]]; split; auto; lia.
Qed.

Lemma nlargest_elem_of n items x : x ∈ nlargest n items → x ∈ items.
Proof.
  intros Hx. rewrite <-(sorted_desc_perm items).
  eapply elem_of_sublist; [exact Hx|apply sublist_take].
Qed.

(** The entries left out by [nlargest] score no higher than the entries
    it returns. *)
Lemma nlargest_keeps_highest n items x y :
  x ∈ nlargest n items → y ∈ items → y ∉ nlargest n items →
  (y.2 <= x.2)%Q.
Proof.
  unfold nlargest. intros Hx Hy Hny.
  pose proof (sorted_desc_sorted items) as Hsorted.
  rewrite <-(take_drop n (sorted_desc items)) in Hsorted.
  rewrite <-(sorted_desc_perm items), <-(take_drop n (sorted_desc items))
    in Hy.
  apply elem_of_app in Hy as [?|Hy]; [done|].
  exact (StronglySorted_app_1_elem_of _ _ _ _ _ Hsorted Hx Hy).
Qed.

Lemma NoDup_keys_functional {A B} (l : list (A * B)) x y1 y2 :
  NoDup l.*1 → (x, y1) ∈ l → (x, y2) ∈ l → y1 = y2.
Proof.
  induction l as [|[a b] l IH]; simpl; [by intros _ ?%elem_of_nil|].
  intros [Ha Hl]%NoDup_cons [H1|H1]%elem_of_cons [H2|H2]%elem_of_cons.
  - congruence.
  - injection H1 as -> ->. exfalso. apply Ha.
    by apply (list_elem_of_fmap_2 fst) in H2.
  - injection H2 as -> ->. exfalso. apply Ha.
    by apply (list_elem_of_fmap_2 fst) in H1.
  - by apply IH.
Qed.

Section ranker_rounds.
Context {nx : NetworkX} {rs : RandomState}.

(** X3. A ranker strategy keeps the highest scores: a node that is in the
    schedule scores at least as high as any node that is not. *)
Theorem rankers_keep_highest s G num_iterations num_seeds st sm output st'
    v qv u qu :
  s ∈ ranker_tags → ranker_scores s G = Ok sm → NoDup sm.*1 →
  run_strategy s G num_iterations num_seeds st = Ok (output, st') →
  (v, qv) ∈ sm → (u, qu) ∈ sm →
  NodeId v ∈ output → NodeId u ∉ output →
  (qu <= qv)%Q.
Proof.
  intros Hs Hsm Hnd Hrun Hv Hu Hin Hout.
  rewrite run_strategy_ranker, Hsm in Hrun by done. simpl in Hrun.
  injection Hrun as <- _.
  apply list_elem_of_fmap in Hin as (v' & [= <-] & Hin).
  apply elem_of_list_mul in Hin as [Hin Hit].
  apply list_elem_of_fmap in Hin as ([v' q'] & -> & Hin). simpl in *.
  assert (q' = qv) as ->.
  { eapply NoDup_keys_functional; [exact Hnd| |exact Hv].
    by eapply nlargest_elem_of. }
  apply (nlargest_keeps_highest num_seeds sm (v', qv) (u, qu)); [done..|].
  intros Hu'. apply Hout. apply list_elem_of_fmap_2, elem_of_list_mul.
  split; [|done]. by apply (list_elem_of_fmap_2 fst) in Hu'.
Qed.

(** What a ranker strategy returns, when it returns. *)
Lemma ranker_round_facts s G num_iterations num_seeds st output st' :
  s ∈ ranker_tags → NoDup (nodes G) → library_contract G →
  run_strategy s G num_iterations num_seeds st = Ok (output, st') →
  ∃ round,
    output = NodeId <$> list_mul round num_iterations
    ∧ length round = num_seeds `min` len G
    ∧ NoDup round
    ∧ ∀ v, v ∈ round → v ∈ nodes G.
Proof.
  intros Hs Hnd Hlib Hrun.
  rewrite run_strategy_ranker in Hrun by done.
  destruct (ranker_scores s G) as [sm|err] eqn:Hsm; [|done].
  simpl in Hrun. injection Hrun as <- _.
  pose proof (ranker_scores_keyed s G sm Hs Hlib Hsm) as Hkeys.
  exists (nlargest num_seeds sm).*1. split; [done|].
  split; [by rewrite length_fmap, nlargest_length, (keyed_length sm G)|].
  pose proof (nlargest_keys_sublist num_seeds sm) as Hsub.
  split.
  - eapply sublist_NoDup; [|exact Hsub]. by rewrite sorted_desc_keys, Hkeys.
  - intros v Hv. eapply elem_of_sublist in Hv; [|exact Hsub].
    by rewrite sorted_desc_keys, Hkeys in Hv.
Qed.

(** X4. Whenever a ranker strategy returns a schedule, the schedule is one
    round repeated; the round holds [min(num_seeds, len(G))] distinct
    nodes of the graph. *)
Theorem ranker_schedule_valid s G num_iterations num_seeds st output st' :
  s ∈ ranker_tags → NoDup (nodes G) → library_contract G →
  run_strategy s G num_iterations num_seeds st = Ok (output, st') →
  ∃ round,
    output = NodeId <$> list_mul round num_iterations
    ∧ length round = num_seeds `min` len G
    ∧ NoDup round
    ∧ ∀ v, v ∈ round → v ∈ nodes G.
Proof. apply ranker_round_facts. Qed.

(** ** Dispatch: letters that are not strategies *)

Lemma run_strategy_not_a_tag s G NUM_ITERATIONS num_seeds st :
  lower s ∉ strategy_tags →
  run_strategy s G NUM_ITERATIONS num_seeds st = Err AssertionError.
Proof.
  unfold strategy_tags. rewrite !elem_of_cons, elem_of_nil. intros Hs.
  unfold run_strategy.
  repeat (case_decide; [exfalso; apply Hs; tauto|]). done.
Qed.

(** X1. A letter that, lowered, is none of the nine strategy letters
    stops the run with [AssertionError]; no schedule is produced. *)
Theorem run_strategy_unknown_letter s G NUM_ITERATIONS num_seeds st :
  lower s ∉ strategy_tags →
  run_strategy s G NUM_ITERATIONS num_seeds st = Err AssertionError.
Proof. apply run_strategy_not_a_tag. Qed.

(** ** The random strategy: failure *)

Lemma choice_error n k st :
  (k ≤ n → ∃ seed_values st', choice n k st = Ok (seed_values, st'))
  ∧ (n < k → choice n k st = Err ValueError).
Proof.
  unfold choice. split; intros Hk.
  - rewrite !decide_False by lia.
    destruct (permutation n st) as [idx st']. by eexists _, _.
  - destruct (decide (n ≤ 0 ∧ k ≠ 0)); [done|]. by rewrite decide_True.
Qed.

(** X2. On a graph with at least one node, the random strategy fails
    exactly when it has at least one round to draw and is asked for more
    seeds than the graph has nodes; the failure is the [ValueError] of
    [np.random.choice], raised by the first round.  With no round to draw
    it returns the empty schedule and leaves the generator untouched. *)
Theorem random_strategy_error G num_iterations num_seeds st :
  0 < len G →
  (random_strategy G num_iterations num_seeds st = Err ValueError
   ↔ 0 < num_iterations ∧ len G < num_seeds)
  ∧ (∀ e, random_strategy G num_iterations num_seeds st = Err e →
          e = ValueError)
  ∧ random_strategy G 0 num_seeds st = Ok ([], st).
Proof.
  intros _. unfold random_strategy.
  assert (∀ it acc st0, num_seeds ≤ len G →
            ∃ r, random_rounds (len G) it num_seeds acc st0 = Ok r) as Hok.
  { induction it as [|it IH]; intros acc st0 Hk; simpl; [by eexists|].
    destruct (proj1 (choice_error (len G) num_seeds st0) Hk)
      as (r & st1 & ->). simpl. by apply IH. }
  assert (∀ e, random_rounds (len G) num_iterations num_seeds [] st = Err e →
               e = ValueError ∧ 0 < num_iterations ∧ len G < num_seeds)
    as Herr.
  { intros e He. destruct (decide (len G < num_seeds)) as [Hk|Hk].
    - destruct num_iterations as [|it]; [done|]. simpl in He.
      rewrite (proj2 (choice_error _ _ _) Hk) in He. simpl in He.
      injection He as <-. split; [done|]. split; [lia|done].
    - destruct (Hok num_iterations [] st) as [r Hr]; [lia|]. congruence. }
  split; [|split; [|done]].
  - split; [by intros (_ & ? & ?)%Herr|].
    intros [Hit Hk]. destruct num_iterations as [|it]; [lia|]. simpl.
    by rewrite (proj2 (choice_error _ _ _) Hk).
  - by intros e (? & _)%Herr.
Qed.

End ranker_rounds.

Lemma rankers_keep_highest_witness :
  "d" ∈ ranker_tags
  ∧ ranker_scores (nx:=Reference.networkx) "d" P3
    = Ok [("A", 1 * (1 / (3 - 1))); ("B", 2 * (1 / (3 - 1)));
          ("C", 1 * (1 / (3 - 1)))]%Q
  ∧ run_strategy (nx:=Reference.networkx) (rs:=Reference.counter)
      "d" P3 2 1 (0 : nat) = Ok ([NodeId "B"; NodeId "B"], 0)
  ∧ (1 * (1 / (3 - 1)) <= 2 * (1 / (3 - 1)))%Q.
Proof.
  assert ("d" ∈ ranker_tags) as Hs by by_computation.
  assert (ranker_scores (nx:=Reference.networkx) "d" P3
          = Ok [("A", 1 * (1 / (3 - 1))); ("B", 2 * (1 / (3 - 1)));
                ("C", 1 * (1 / (3 - 1)))]%Q) as Hsm by reflexivity.
  assert (run_strategy (nx:=Reference.networkx) (rs:=Reference.counter)
            "d" P3 2 1 (0 : nat) = Ok ([NodeId "B"; NodeId "B"], 0)) as Hrun
    by (vm_compute; reflexivity).
  split; [exact Hs|]. split; [exact Hsm|]. split; [exact Hrun|].
  refine (rankers_keep_highest (nx:=Reference.networkx)
            (rs:=Reference.counter) "d" P3 2 1 (0 : nat) _ _ (0 : nat)
            "B" _ "A" _ Hs Hsm _ Hrun _ _ _ _).
  - by_computation.
  - by repeat constructor.
  - by repeat constructor.
  - by repeat constructor.
  - rewrite !elem_of_cons, elem_of_nil. by intros [[=]|[[=]|[]]].
Defined.

Lemma ranker_schedule_valid_witness :
  "c" ∈ ranker_tags
  ∧ NoDup (nodes C4_chord)
  ∧ library_contract (nx:=Reference.networkx) C4_chord
  ∧ run_strategy (nx:=Reference.networkx) (rs:=Reference.counter)
      "c" C4_chord 2 3 (0 : nat)
    = Ok (NodeId <$> ["a"; "d"; "b"; "a"; "d"; "b"], 0)
  ∧ ∃ round,
      (NodeId <$> ["a"; "d"; "b"; "a"; "d"; "b"])
      = (NodeId <$> list_mul round 2)
      ∧ length round = 3 `min` len C4_chord
      ∧ NoDup round
      ∧ ∀ v, v ∈ round → v ∈ nodes C4_chord.
Proof.
  assert ("c" ∈ ranker_tags) as Hs by by_computation.
  assert (NoDup (nodes C4_chord)) as Hnd by by_computation.
  assert (library_contract (nx:=Reference.networkx) C4_chord) as Hlib
    by (apply reference_contract; vm_compute; reflexivity).
  assert (run_strategy (nx:=Reference.networkx) (rs:=Reference.counter)
            "c" C4_chord 2 3 (0 : nat)
          = Ok (NodeId <$> ["a"; "d"; "b"; "a"; "d"; "b"], 0)) as Hrun
    by (vm_compute; reflexivity).
  split; [exact Hs|]. split; [exact Hnd|]. split; [exact Hlib|].
  split; [exact Hrun|].
  exact (ranker_schedule_valid (nx:=Reference.networkx)
           (rs:=Reference.counter) "c" C4_chord 2 3 (0 : nat) _ _
           Hs Hnd Hlib Hrun).
Defined.

Lemma run_strategy_unknown_letter_witness :
  (lower "X" ∉ strategy_tags)
  ∧ run_strategy (nx:=Reference.networkx) (rs:=Reference.counter)
      "X" P3 50 2 (0 : nat) = Err AssertionError.
Proof.
  assert (lower "X" ∉ strategy_tags) as Hs by by_computation.
  split; [exact Hs|].
  exact (run_strategy_unknown_letter (nx:=Reference.networkx)
           (rs:=Reference.counter) "X" P3 50 2 (0 : nat) Hs).
Defined.

Lemma random_strategy_error_witness :
  0 < len P3
  ∧ random_strategy (rs:=Reference.counter) P3 50 4 (0 : nat)
    = Err ValueError.
Proof.
  assert (0 < len P3) as Hn by (vm_compute; lia).
  split; [exact Hn|].
  apply (random_strategy_error (rs:=Reference.counter) P3 50 4 (0 : nat) Hn).
  vm_compute. lia.
Defined.

(** * The output files *)

(** ** Strings *)

Lemma append_cons a (s t : string) : String a s +:+ t = String a (s +:+ t).
Proof. done. Qed.

Lemma append_nil_l (t : string) : "" +:+ t = t.
Proof. done. Qed.

Lemma append_nil_r (s : string) : s +:+ "" = s.
Proof. induction s as [|a s IH]; [done|]. by rewrite append_cons, IH. Qed.

Lemma append_assoc (s t u : string) : (s +:+ t) +:+ u = s +:+ (t +:+ u).
Proof. induction s as [|a s IH]; [done|]. by rewrite !append_cons, IH. Qed.

Lemma length_append (s t : string) :
  String.length (s +:+ t) = String.length s + String.length t.
Proof.
  induction s as [|a s IH]; [done|]. rewrite append_cons. simpl. by rewrite IH.
Qed.

Lemma chars_append (s t : string) : chars (s +:+ t) = chars s ++ chars t.
Proof.
  induction s as [|a s IH]; [done|].
  rewrite append_cons. unfold chars in *. simpl. by rewrite IH.
Qed.

Lemma split_on_nonempty c s : split_on c s ≠ [].
Proof.
  induction s as [|a s IH]; simpl; [done|].
  case_decide; [done|]. by destruct (split_on c s).
Qed.

Lemma split_on_no_sep c w : c ∉ chars w → split_on c w = [w].
Proof.
  induction w as [|a w IH]; [done|]. unfold chars. simpl.
  rewrite not_elem_of_cons. intros [Hne Hw].
  rewrite decide_False by done. by rewrite IH.
Qed.

Lemma split_on_app_sep c w s :
  c ∉ chars w → split_on c (w +:+ String c s) = w :: split_on c s.
Proof.
  induction w as [|a w IH].
  - intros _. rewrite append_nil_l. simpl. by rewrite decide_True.
  - intros Hc. rewrite append_cons.
    unfold chars in Hc. simpl in Hc. apply not_elem_of_cons in Hc as [Hne Hw].
    simpl. rewrite decide_False by done. by rewrite IH.
Qed.

(** Splitting a joined text at the separator gives the lines back, when
    there is at least one line and no line holds the separator. *)
Lemma split_on_join c lines :
  lines ≠ [] → Forall (λ w, c ∉ chars w) lines →
  split_on c (join (String c "") lines) = lines.
Proof.
  intros Hne Hall. induction Hall as [|w lines Hw Hall IH]; [done|].
  destruct lines as [|w' lines].
  - simpl. by apply split_on_no_sep.
  - unfold join in *. simpl String.concat.
    change (String.append w (String.append (String c "") ?x))
      with (w +:+ String c x).
    rewrite split_on_app_sep by done. f_equal. by apply IH.
Qed.

(** The length of a split is one more than the number of separators. *)
Lemma split_on_length c s :
  length (split_on c s) = S (length (filter (λ a, a = c) (chars s))).
Proof.
  induction s as [|a s IH]; [done|]. unfold chars in *. simpl.
  rewrite filter_cons. case_decide; simpl; [by rewrite IH|].
  pose proof (split_on_nonempty c s).
  destruct (split_on c s); [done|]. simpl in *. lia.
Qed.

(** ** Decimal numerals *)

Lemma pretty_N_char_digit x : is_digit (pretty_N_char x).
Proof.
  unfold pretty_N_char, is_digit. repeat case_match; by eexists.
Qed.

Lemma pretty_N_go_digits x s :
  Forall is_digit (chars s) → Forall is_digit (chars (pretty_N_go x s)).
Proof.
  revert s. induction (N.lt_wf_0 x) as [x _ IH]; intros s Hs.
  destruct (decide (x = 0)%N) as [->|Hx]; [by rewrite pretty_N_go_0|].
  rewrite pretty_N_go_step by lia. apply IH.
  - apply N.div_lt; lia.
  - unfold chars. simpl. constructor; [apply pretty_N_char_digit|done].
Qed.

Lemma pretty_nat_digits (n : nat) : Forall is_digit (chars (pretty n)).
Proof.
  unfold pretty, pretty_nat, pretty, pretty_N. case_decide.
  - repeat constructor. by eexists.
  - apply pretty_N_go_digits. constructor.
Qed.

(** ** [output_list] *)

Lemma newline_not_digit : ¬ is_digit "010".
Proof. by intros [? [=]]. Qed.

Lemma str_printable x :
  printable_seed x → ∃ w, str x = Ok w ∧ "010"%char ∉ chars w.
Proof.
  destruct x as [v|i]; simpl.
  - intros [Hascii Hline]. exists v. by rewrite decide_True.
  - intros _. eexists. split; [done|]. intros Hin.
    pose proof (pretty_nat_digits i) as Hdigits.
    rewrite Forall_forall in Hdigits.
    by apply newline_not_digit, Hdigits.
Qed.

Lemma mapM_str_printable seed_values :
  Forall printable_seed seed_values →
  ∃ lines, mapM str seed_values = Ok lines
           ∧ Forall2 (λ x w, str x = Ok w) seed_values lines
           ∧ Forall (λ w, "010"%char ∉ chars w) lines.
Proof.
  induction 1 as [|x l Hx Hl (lines & Hlines & Hall & Hnl)]; simpl.
  - exists []. by repeat constructor.
  - destruct (str_printable x Hx) as (w & Hw & Hwnl).
    exists (w :: lines). rewrite Hw. simpl. rewrite Hlines. simpl.
    split; [done|]. split; by constructor.
Qed.

Lemma mapM_str_error seed_values e :
  mapM str seed_values = Err e → e = LibraryError "UnicodeEncodeError".
Proof.
  induction seed_values as [|x l IH]; simpl; [done|].
  destruct x as [v|i]; simpl.
  - case_decide; simpl; [|congruence].
    destruct (mapM str l); simpl; [done|]. intros [= <-]. by apply IH.
  - destruct (mapM str l); simpl; [done|]. intros [= <-]. by apply IH.
Qed.

Lemma mapM_str_ok_printable seed_values lines :
  mapM str seed_values = Ok lines →
  Forall (λ x, ∀ v, x = NodeId v → is_ascii v) seed_values.
Proof.
  revert lines. induction seed_values as [|x l IH]; intros lines; simpl;
    [by constructor|].
  destruct (str x) as [w|] eqn:Hw; simpl; [|done].
  destruct (mapM str l) as [ws|] eqn:Hws; simpl; [|done]. intros _.
  constructor; [|by eapply IH].
  intros v ->. simpl in Hw. by case_decide.
Qed.

(** X10. [output_list] on a schedule of node indices and of ASCII node
    identifiers that hold no line break writes one line per entry: the
    file then holds the entries' texts joined by line breaks, splitting
    its content at the line breaks gives these texts back, and no other
    file is touched. *)
Theorem output_list_round_trip filename seed_values fs :
  Forall printable_seed seed_values →
  ∃ lines,
    Forall2 (λ x w, str x = Ok w) seed_values lines
    ∧ output_list filename seed_values fs
      = (<[filename := join newline lines]> fs, Ok ())
    ∧ (seed_values ≠ [] → split_on "010" (join newline lines) = lines)
    ∧ (seed_values = [] → join newline lines = "").
Proof.
  intros Hall.
  destruct (mapM_str_printable seed_values Hall) as (lines & Hm & H2 & Hnl).
  exists lines. split; [done|]. split; [|split].
  - unfold output_list. rewrite Hm. by rewrite insert_insert_eq.
  - intros Hne. apply split_on_join; [|done].
    intros ->. apply Forall2_nil_inv_r in H2. done.
  - intros ->. apply Forall2_nil_inv_l in H2 as ->. done.
Qed.

Lemma output_list_round_trip_witness :
  Forall printable_seed [NodeId "12"; NodeIndex 7; NodeId "3"]
  ∧ output_list "2.10.1_d.txt" [NodeId "12"; NodeIndex 7; NodeId "3"] ∅
    = (<["2.10.1_d.txt" := join newline ["12"; "7"; "3"]]> ∅, Ok ())
  ∧ split_on "010" (join newline ["12"; "7"; "3"]) = ["12"; "7"; "3"].
Proof.
  assert (Forall printable_seed [NodeId "12"; NodeIndex 7; NodeId "3"])
    as Hall.
  { repeat constructor; by_computation. }
  split; [exact Hall|].
  destruct (output_list_round_trip "2.10.1_d.txt"
              [NodeId "12"; NodeIndex 7; NodeId "3"] ∅ Hall)
    as (lines & _ & _ & _ & _).
  split; vm_compute; reflexivity.
Defined.

(** X11. A node identifier that is not ASCII makes [output_list] fail with
    [UnicodeEncodeError] after the file has been opened for writing: the
    file is left empty, whatever it held before. *)
Theorem output_list_not_ascii filename seed_values fs :
  Exists (λ x, ∃ v, x = NodeId v ∧ ¬ is_ascii v) seed_values →
  output_list filename seed_values fs
  = (<[filename := ""]> fs, Err (LibraryError "UnicodeEncodeError")).
Proof.
  intros Hex. unfold output_list.
  destruct (mapM str seed_values) as [lines|e] eqn:Hm.
  - apply mapM_str_ok_printable in Hm. rewrite Forall_forall in Hm.
    apply Exists_exists in Hex as (x & Hx & v & -> & Hv).
    exfalso. apply Hv. by apply (Hm _ Hx v).
  - by apply mapM_str_error in Hm as ->.
Qed.

Lemma output_list_not_ascii_witness :
  Exists (λ x, ∃ v, x = NodeId v ∧ ¬ is_ascii v)
    [NodeId "1"; NodeId (String "233" "")]
  ∧ output_list "g_d.txt" [NodeId "1"; NodeId (String "233" "")]
      (<["g_d.txt" := "old"]> ∅)
    = (<["g_d.txt" := ""]> (<["g_d.txt" := "old"]> ∅),
       Err (LibraryError "UnicodeEncodeError")).
Proof.
  assert (Exists (λ x, ∃ v, x = NodeId v ∧ ¬ is_ascii v)
            [NodeId "1"; NodeId (String "233" "")]) as Hex.
  { apply Exists_cons_tl, Exists_cons_hd. eexists. split; [done|].
    by_computation. }
  split; [exact Hex|].
  exact (output_list_not_ascii "g_d.txt" _ _ Hex).
Defined.

(** ** The loop of [main] *)

Lemma lower_ascii_idempotent c : lower_ascii (lower_ascii c) = lower_ascii c.
Proof. destruct c as [[] [] [] [] [] [] [] []]; vm_compute; reflexivity. Qed.

Lemma lower_idempotent s : lower (lower s) = lower s.
Proof.
  induction s as [|c s IH]; [done|]. simpl.
  by rewrite lower_ascii_idempotent, IH.
Qed.

Lemma substring_append (s t : string) :
  String.substring 0 (String.length s) (s +:+ t) = s.
Proof.
  induction s as [|a s IH]; simpl; [by destruct t|]. by rewrite IH.
Qed.

Lemma drop_end_append (s t : string) : drop_end (String.length t) (s +:+ t) = s.
Proof.
  unfold drop_end. rewrite length_append.
  replace (String.length s + String.length t - String.length t)
    with (String.length s) by lia.
  apply substring_append.
Qed.

Lemma output_list_ok filename seed_values fs :
  Forall printable_seed seed_values → seed_values ≠ [] →
  ∃ content,
    output_list filename seed_values fs = (<[filename := content]> fs, Ok ())
    ∧ length (split_on "010" content) = length seed_values.
Proof.
  intros Hall Hne.
  destruct (mapM_str_printable seed_values Hall) as (lines & Hm & H2 & Hnl).
  exists (join newline lines). split.
  - unfold output_list. rewrite Hm. by rewrite insert_insert_eq.
  - rewrite split_on_join; [by apply Forall2_length in H2|..|done].
    intros ->. by apply Forall2_nil_inv_r in H2.
Qed.

Lemma output_list_files filename seed_values fs fs' r :
  output_list filename seed_values fs = (fs', r) →
  ∃ content, fs' = <[filename := content]> fs.
Proof.
  unfold output_list. destruct (mapM str seed_values); intros [= <- _].
  - eexists. by rewrite insert_insert_eq.
  - by eexists.
Qed.

Section main_loop.
Context {nx : NetworkX} {rs : RandomState}.

Lemma run_strategy_lower s G NUM_ITERATIONS num_seeds st :
  run_strategy s G NUM_ITERATIONS num_seeds st
  = run_strategy (lower s) G NUM_ITERATIONS num_seeds st.
Proof. unfold run_strategy. by rewrite lower_idempotent. Qed.

(** The schedule of any strategy on a graph with enough nodes. *)
Lemma run_strategy_output_facts s G num_iterations num_seeds st output st' :
  graph_wf G → library_contract G → shuffles → num_seeds ≤ len G →
  run_strategy s G num_iterations num_seeds st = Ok (output, st') →
  lower s ∈ strategy_tags
  ∧ length output = num_seeds * num_iterations
  ∧ Forall (λ x, ∀ v, x = NodeId v → v ∈ nodes G) output.
Proof.
  intros Hwf Hlib Hperm Hk Hrun.
  destruct (decide (lower s ∈ strategy_tags)) as [Hs|Hs];
    [|by rewrite run_strategy_not_a_tag in Hrun].
  split; [done|]. rewrite run_strategy_lower in Hrun.
  assert (∀ e, lower s = extractor_tag e →
            length output = num_seeds * num_iterations
            ∧ Forall (λ x, ∀ v, x = NodeId v → v ∈ nodes G) output)
    as Hextractor.
  { intros e He. rewrite He, run_strategy_extractor in Hrun.
    unfold deterministic in Hrun.
    destruct (extractor_strategy e G num_iterations num_seeds) as [out|]
      eqn:Hout; [|done].
    simpl in Hrun. injection Hrun as <- _.
    destruct (extractor_round_facts e G num_iterations num_seeds out
                (proj1 Hwf) Hlib Hout)
      as (c & round & _ & _ & -> & Hlen & _ & Hsub & _).
    split; [by rewrite length_fmap, list_mul_length, Hlen|].
    apply Forall_forall. intros x Hx v ->.
    apply list_elem_of_fmap in Hx as (v' & [= <-] & Hx).
    apply elem_of_list_mul in Hx as [Hx _]. auto. }
  apply strategy_tags_cases in Hs as [Hs|[Hs|[Hs|[Hs|Hs]]]].
  - rewrite Hs in Hrun.
    change (run_strategy "r" G num_iterations num_seeds st)
      with ('(output, st') ← random_strategy G num_iterations num_seeds st;
            Ok (NodeIndex <$> (output : list nat), st')) in Hrun.
    destruct (random_rounds_sampled (len G) num_iterations num_seeds [] st
                Hperm Hk) as (rounds & st1 & Hr & _ & Hlen & Hall).
    unfold random_strategy in Hrun. rewrite Hr in Hrun. simpl in Hrun.
    injection Hrun as <- _. split.
    + rewrite length_fmap, (join_length rounds num_seeds), Hlen; [lia|].
      eapply Forall_impl; [exact Hall|]. by intros r [? _].
    + apply Forall_forall. intros x Hx v ->.
      by apply list_elem_of_fmap in Hx as (i & [=] & _).
  - destruct (ranker_round_facts (lower s) G num_iterations num_seeds
                st output st' Hs (proj1 Hwf) Hlib Hrun)
      as (round & -> & Hlen & _ & Hsub).
    rewrite Nat.min_l in Hlen by done.
    split; [by rewrite length_fmap, list_mul_length, Hlen|].
    apply Forall_forall. intros x Hx v ->.
    apply list_elem_of_fmap in Hx as (v' & [= <-] & Hx).
    apply elem_of_list_mul in Hx as [Hx _]. auto.
  - by apply (Hextractor MST).
  - by apply (Hextractor DominatingSet).
  - by apply (Hextractor VertexCover).
Qed.

Lemma main_step_files G F it k s p p' r :
  main_step G F it k s p = (p', r) →
  (files p' = files p ∧ printed p' = printed p ∧ r ≠ Ok ())
  ∨ (∃ content, files p' = <[output_name F s := content]> (files p))
    ∧ (r = Ok () → printed p' = printed p ++ [message s])
    ∧ (r ≠ Ok () → printed p' = printed p).
Proof.
  unfold main_step.
  destruct (run_strategy s G it k (generator p)) as [[output st']|e];
    [|intros [= <- <-]; by left].
  destruct (output_list _ output (files p)) as [fs' ro] eqn:Hout.
  apply output_list_files in Hout as [content ->].
  destruct ro as [[]|e]; intros [= <- <-]; right; simpl;
    (split; [by eexists|]); split; done.
Qed.

Lemma main_loop_app G F it k l1 l2 p :
  main_loop G F it k (l1 ++ l2) p =
    match main_loop G F it k l1 p with
    | (p1, Ok _) => main_loop G F it k l2 p1
    | (p1, Err e) => (p1, Err e)
    end.
Proof.
  revert p. induction l1 as [|s l1 IH]; intros p; simpl; [done|].
  destruct (main_step G F it k s p) as [p1 [[]|e]]; [apply IH|done].
Qed.

End main_loop.

Section main_properties.
Context {nx : NetworkX} {rs : RandomState}.

(** What the loop leaves behind, however it ends. *)
Lemma main_loop_effects G F it k strategies p p' r :
  main_loop G F it k strategies p = (p', r) →
  (∀ f, f ∉ output_name F <$> strategies → files p' !! f = files p !! f)
  ∧ (r = Ok () →
     printed p' = printed p ++ (message <$> strategies)
     ∧ dom (files p')
       = dom (files p) ∪ list_to_set (output_name F <$> strategies)).
Proof.
  revert p. induction strategies as [|s strategies IH]; intros p; simpl.
  - intros [= <- <-]. split; [done|]. intros _.
    rewrite app_nil_r. split; [done|].
    symmetry. apply (right_id_L ∅ (∪)).
  - destruct (main_step G F it k s p) as [p1 r1] eqn:Hstep.
    apply main_step_files in Hstep.
    destruct r1 as [[]|e].
    + intros Hloop. apply IH in Hloop as [Hother Hok].
      destruct Hstep as [(_ & _ & ?)|([content Hfiles] & Hprinted & _)];
        [done|].
      split.
      * intros f Hf. apply not_elem_of_cons in Hf as [Hne Hf].
        rewrite (Hother f Hf), Hfiles. by rewrite lookup_insert_ne.
      * intros Hr. destruct (Hok Hr) as [Hp Hd].
        rewrite Hp, Hprinted, <-app_assoc by done. split; [done|].
        rewrite Hd, Hfiles, dom_insert_L.
        apply set_eq. intros x.
        rewrite !elem_of_union, elem_of_singleton, !elem_of_list_to_set.
        tauto.
    + intros [= <- <-]. split; [|done].
      intros f Hf. apply not_elem_of_cons in Hf as [Hne Hf].
      destruct Hstep as [(-> & _)|([content ->] & _)]; [done|].
      by rewrite lookup_insert_ne.
Qed.

(** X12. When every strategy of the list succeeds, [main] prints one line
    per strategy, in order, and leaves exactly one new or rewritten file
    per distinct lowered letter, named [<filename>_<letter>.txt]; every
    other file is as it was. *)
Theorem main_success filename num_seeds strategies G p p' :
  main filename num_seeds strategies G p = (p', Ok ()) →
  printed p' = printed p ++ (message <$> strategies)
  ∧ dom (files p')
    = dom (files p)
      ∪ list_to_set ((λ s, filename +:+ "_" +:+ lower s +:+ ".txt")
                       <$> strategies)
  ∧ (∀ f, f ∉ (λ s, filename +:+ "_" +:+ lower s +:+ ".txt") <$> strategies →
          files p' !! f = files p !! f).
Proof.
  unfold main. intros Hloop.
  destruct (main_loop_effects _ _ _ _ _ _ _ _ Hloop) as [Hother Hok].
  destruct (Hok eq_refl) as [Hp Hd].
  assert (output_name (filename +:+ ".json")
          = λ s, filename +:+ "_" +:+ lower s +:+ ".txt") as Hname.
  { pose proof (drop_end_append filename ".json") as Hdrop.
    change (String.length ".json") with 5 in Hdrop.
    unfold output_name. by rewrite Hdrop. }
  rewrite Hname in *. done.
Qed.

(** X13. A letter that is no strategy ends the run with
    [AssertionError]: the files and lines of the strategies before it are
    there, and nothing is written or printed for it or for the strategies
    after it. *)
Theorem main_unknown_letter_aborts filename num_seeds pre s post G p p1 :
  main filename num_seeds pre G p = (p1, Ok ()) →
  lower s ∉ strategy_tags →
  main filename num_seeds (pre ++ s :: post) G p = (p1, Err AssertionError).
Proof.
  unfold main. intros Hpre Hs.
  rewrite main_loop_app, Hpre. simpl. unfold main_step.
  by rewrite run_strategy_not_a_tag.
Qed.

(** X14. On a well-formed graph with at least [num_seeds] nodes whose
    identifiers are ASCII and hold no line break, and for a positive seed
    budget, every file that a successful run of [main] writes has exactly
    [num_seeds * 50] lines. *)
Theorem main_line_count filename num_seeds strategies G p p' :
  main filename num_seeds strategies G p = (p', Ok ()) →
  graph_wf G → library_contract G → shuffles →
  0 < num_seeds → num_seeds ≤ len G → Forall printable (nodes G) →
  ∀ s, s ∈ strategies →
    ∃ content,
      files p' !! (filename +:+ "_" +:+ lower s +:+ ".txt") = Some content
      ∧ length (split_on "010" content) = num_seeds * 50.
Proof.
  unfold main. intros Hloop Hwf Hlib Hperm Hpos Hk Hprint.
  rewrite Forall_forall in Hprint.
  assert (∀ s, output_name (filename +:+ ".json") s
               = filename +:+ "_" +:+ lower s +:+ ".txt") as Hname.
  { intros s. pose proof (drop_end_append filename ".json") as Hdrop.
    change (String.length ".json") with 5 in Hdrop.
    unfold output_name. by rewrite Hdrop. }
  setoid_rewrite <-Hname. clear Hname.
  generalize dependent p. generalize (filename +:+ ".json") as F.
  intros F. induction strategies as [|s0 strategies IH]; intros p Hloop s Hs;
    [by apply elem_of_nil in Hs|].
  simpl in Hloop.
  destruct (main_step G F 50 num_seeds s0 p) as [p1 [[]|e]] eqn:Hstep;
    [|done].
  destruct (decide (output_name F s ∈ output_name F <$> strategies))
    as [Hlater|Hlater].
  { apply list_elem_of_fmap in Hlater as (s' & Heq & Hs').
    rewrite Heq. by eapply IH. }
  apply elem_of_cons in Hs as [->|Hs];
    [|by destruct Hlater; apply list_elem_of_fmap_2].
  destruct (main_loop_effects _ _ _ _ _ _ _ _ Hloop) as [Hother _].
  rewrite (Hother _ Hlater). clear Hloop Hother IH.
  unfold main_step in Hstep.
  destruct (run_strategy s0 G 50 num_seeds (generator p))
    as [[output st']|e] eqn:Hrun; [|done].
  destruct (run_strategy_output_facts _ _ _ _ _ _ _ Hwf Hlib Hperm Hk Hrun)
    as (_ & Hlen & Hnodes).
  destruct (output_list_ok (output_name F s0) output (files p))
    as (content & Hout & Hlines).
  { rewrite Forall_forall in Hnodes. apply Forall_forall.
    intros [v|i] Hx; simpl; [|done]. apply Hprint. by eapply Hnodes. }
  { intros ->. simpl in Hlen. lia. }
  fold (output_name F s0) in Hstep. rewrite Hout in Hstep.
  injection Hstep as <-. simpl.
  exists content. rewrite lookup_insert_eq. split; [done|]. lia.
Qed.

End main_properties.

Lemma P3_run :
  main (nx:=Reference.networkx) "2.3.1" 3 ["d"; "V"] P3 start
  = ((main (nx:=Reference.networkx) "2.3.1" 3 ["d"; "V"] P3 start).1, Ok ()).
Proof.
  rewrite (surjective_pairing (main _ _ _ _ _)) at 1. f_equal.
Qed.

Lemma main_success_witness :
  main (nx:=Reference.networkx) "2.3.1" 3 ["d"; "V"] P3 start
  = ((main (nx:=Reference.networkx) "2.3.1" 3 ["d"; "V"] P3 start).1, Ok ())
  ∧ printed (main (nx:=Reference.networkx) "2.3.1" 3 ["d"; "V"] P3 start).1
    = ["d successfully generated."; "v successfully generated."]
  ∧ dom (files (main (nx:=Reference.networkx) "2.3.1" 3 ["d"; "V"] P3 start).1)
    = {["2.3.1_d.txt"; "2.3.1_v.txt"]}.
Proof.
  split; [exact P3_run|].
  destruct (main_success (nx:=Reference.networkx) "2.3.1" 3 ["d"; "V"] P3
              start _ P3_run) as (-> & -> & _).
  split; vm_compute; reflexivity.
Defined.

Lemma main_unknown_letter_aborts_witness :
  main (nx:=Reference.networkx) "2.3.1" 3 ["d"; "V"] P3 start
  = ((main (nx:=Reference.networkx) "2.3.1" 3 ["d"; "V"] P3 start).1, Ok ())
  ∧ (lower "x" ∉ strategy_tags)
  ∧ main (nx:=Reference.networkx) "2.3.1" 3 (["d"; "V"] ++ "x" :: ["m"])
      P3 start
    = ((main (nx:=Reference.networkx) "2.3.1" 3 ["d"; "V"] P3 start).1,
       Err AssertionError).
Proof.
  assert (lower "x" ∉ strategy_tags) as Hs by by_computation.
  split; [exact P3_run|]. split; [exact Hs|].
  exact (main_unknown_letter_aborts (nx:=Reference.networkx) "2.3.1" 3
           ["d"; "V"] "x" ["m"] P3 start _ P3_run Hs).
Defined.

Lemma main_line_count_witness :
  main (nx:=Reference.networkx) "2.3.1" 3 ["d"; "V"] P3 start
  = ((main (nx:=Reference.networkx) "2.3.1" 3 ["d"; "V"] P3 start).1, Ok ())
  ∧ graph_wf P3
  ∧ library_contract (nx:=Reference.networkx) P3
  ∧ shuffles (rs:=Reference.counter)
  ∧ 0 < 3 ∧ 3 ≤ len P3
  ∧ Forall printable (nodes P3)
  ∧ "V" ∈ ["d"; "V"]
  ∧ ∃ content,
      files (main (nx:=Reference.networkx) "2.3.1" 3 ["d"; "V"] P3 start).1
        !! "2.3.1_v.txt" = Some content
      ∧ length (split_on "010" content) = 3 * 50.
Proof.
  assert (graph_wf P3) as Hwf by (split; by_computation).
  assert (library_contract (nx:=Reference.networkx) P3) as Hlib
    by (apply reference_contract; vm_compute; reflexivity).
  assert (0 < 3) as Hpos by lia.
  assert (3 ≤ len P3) as Hk by (vm_compute; lia).
  assert (Forall printable (nodes P3)) as Hprint by by_computation.
  assert ("V" ∈ ["d"; "V"]) as Hs by by_computation.
  split; [exact P3_run|]. split; [exact Hwf|]. split; [exact Hlib|].
  split; [exact counter_shuffles|]. split; [exact Hpos|].
  split; [exact Hk|]. split; [exact Hprint|]. split; [exact Hs|].
  exact (main_line_count (nx:=Reference.networkx) "2.3.1" 3 ["d"; "V"] P3
           start _ P3_run Hwf Hlib counter_shuffles Hpos Hk Hprint "V" Hs).
Defined.

(** * Loading the graph *)

Lemma neighbors_not_node G x : x ∉ nodes G → neighbors G x = [].
Proof.
  induction G as [|[u nbrs] G IH]; simpl; [done|].
  rewrite not_elem_of_cons. intros [Hne Hx].
  rewrite decide_False by done. by apply IH.
Qed.

Lemma neighbors_app G1 G2 x :
  neighbors (G1 ++ G2) x
  = if decide (x ∈ nodes G1) then neighbors G1 x else neighbors G2 x.
Proof.
  induction G1 as [|[u nbrs] G1 IH].
  - by destruct (decide (x ∈ nodes [])) as [[]%elem_of_nil|].
  - simpl. destruct (decide (u = x)) as [->|Hne].
    + rewrite decide_True; [done|]. left.
    + rewrite IH. apply decide_ext. rewrite elem_of_cons.
      split; [by right|]. by intros [->|?].
Qed.

Lemma neighbors_entry G x nbrs :
  NoDup (nodes G) → (x, nbrs) ∈ G → neighbors G x = nbrs.
Proof.
  induction G as [|[u ns] G IH]; simpl; [by intros _ ?%elem_of_nil|].
  intros [Hu HG]%NoDup_cons [[= <- <-]|Hin]%elem_of_cons.
  - by rewrite decide_True.
  - rewrite decide_False; [by apply IH|].
    intros ->. apply Hu. by apply (list_elem_of_fmap_2 fst) in Hin.
Qed.

Lemma neighbors_is_node G x w : w ∈ neighbors G x → x ∈ nodes G.
Proof.
  intros Hw. destruct (decide (x ∈ nodes G)) as [|Hx]; [done|].
  rewrite neighbors_not_node in Hw by done. by apply elem_of_nil in Hw.
Qed.

Lemma nodes_add_node T u :
  nodes (Reference.add_node T u)
  = if decide (u ∈ nodes T) then nodes T else nodes T ++ [u].
Proof.
  unfold Reference.add_node. case_decide; [done|].
  unfold nodes. by rewrite fmap_app.
Qed.

Lemma elem_of_nodes_add_node T u x :
  x ∈ nodes (Reference.add_node T u) ↔ x ∈ nodes T ∨ x = u.
Proof.
  rewrite nodes_add_node. case_decide.
  - split; [by left|]. by intros [?| ->].
  - by rewrite elem_of_app, list_elem_of_singleton.
Qed.

Lemma NoDup_nodes_add_node T u :
  NoDup (nodes T) → NoDup (nodes (Reference.add_node T u)).
Proof.
  intros HT. rewrite nodes_add_node. case_decide; [done|].
  apply NoDup_app. split; [done|]. split; [|apply NoDup_singleton].
  by intros x Hx ->%list_elem_of_singleton.
Qed.

Lemma neighbors_add_node T u x :
  neighbors (Reference.add_node T u) x = neighbors T x.
Proof.
  unfold Reference.add_node. case_decide as Hu; [done|].
  rewrite neighbors_app. case_decide as Hx; [done|].
  rewrite (neighbors_not_node T) by done. simpl. by case_decide.
Qed.

Lemma nodes_add_nbr T u v : nodes (Reference.add_nbr u v <$> T) = nodes T.
Proof.
  unfold nodes. rewrite <-list_fmap_compose. apply list_fmap_ext.
  intros i [k nbrs] _. unfold Reference.add_nbr. simpl. by case_decide.
Qed.

Lemma add_nbr_eq u v nbrs :
  Reference.add_nbr u v (u, nbrs)
  = (u, if decide (v ∈ nbrs) then nbrs else nbrs ++ [v]).
Proof. unfold Reference.add_nbr. simpl. by rewrite decide_True. Qed.

Lemma add_nbr_ne u v k nbrs :
  k ≠ u → Reference.add_nbr u v (k, nbrs) = (k, nbrs).
Proof. intros. unfold Reference.add_nbr. simpl. by rewrite decide_False. Qed.

Lemma neighbors_add_nbr T u v x :
  neighbors (Reference.add_nbr u v <$> T) x
  = if decide (x = u ∧ x ∈ nodes T ∧ v ∉ neighbors T x)
    then neighbors T x ++ [v] else neighbors T x.
Proof.
  induction T as [|[k nbrs] T IH].
  - rewrite decide_False; [done|]. intros (_ & []%elem_of_nil & _).
  - rewrite fmap_cons. destruct (decide (k = u)) as [->|Hku].
    + rewrite add_nbr_eq. cbn [neighbors].
      destruct (decide (u = x)) as [->|Hux].
      * destruct (decide (v ∈ nbrs)).
        -- rewrite decide_False; [done|]. by intros (_ & _ & ?).
        -- rewrite decide_True; [done|]. split; [done|]. split; [left|done].
      * rewrite IH. apply decide_ext. unfold nodes. rewrite fmap_cons.
        rewrite elem_of_cons. simpl.
        split; [intros (-> & ? & ?); done|]. intros (-> & _ & _). done.
    + rewrite add_nbr_ne by done. cbn [neighbors].
      destruct (decide (k = x)) as [->|Hkx].
      * rewrite decide_False; [done|]. by intros [-> _].
      * rewrite IH. apply decide_ext. unfold nodes. rewrite fmap_cons.
        rewrite elem_of_cons. simpl.
        split; [tauto|]. intros (? & [->|?] & ?); done.
Qed.

(** The effect of [T.add_edge(u, v)]. *)
Lemma add_edge_nodes T u v x :
  x ∈ nodes (Reference.add_edge T (u, v)) ↔ x ∈ nodes T ∨ x = u ∨ x = v.
Proof.
  unfold Reference.add_edge. simpl.
  rewrite !nodes_add_nbr, !elem_of_nodes_add_node. tauto.
Qed.

Lemma add_edge_nodes_prefix T u v :
  nodes T `prefix_of` nodes (Reference.add_edge T (u, v)).
Proof.
  unfold Reference.add_edge. simpl. rewrite !nodes_add_nbr.
  etrans; [|rewrite nodes_add_node; case_decide;
             [reflexivity|by apply prefix_app_r]].
  rewrite nodes_add_node. case_decide; [done|]. by apply prefix_app_r.
Qed.

Lemma add_edge_NoDup_nodes T u v :
  NoDup (nodes T) → NoDup (nodes (Reference.add_edge T (u, v))).
Proof.
  intros HT. unfold Reference.add_edge. simpl. rewrite !nodes_add_nbr.
  by apply NoDup_nodes_add_node, NoDup_nodes_add_node.
Qed.

Lemma add_edge_neighbors T u v x w :
  w ∈ neighbors (Reference.add_edge T (u, v)) x
  ↔ w ∈ neighbors T x ∨ (x = u ∧ w = v) ∨ (x = v ∧ w = u).
Proof.
  unfold Reference.add_edge. simpl.
  set (T2 := Reference.add_node (Reference.add_node T u) v).
  assert (u ∈ nodes T2 ∧ v ∈ nodes T2) as [Hu Hv].
  { unfold T2. rewrite !elem_of_nodes_add_node. tauto. }
  assert (∀ y, neighbors T2 y = neighbors T y) as HT2.
  { intros y. unfold T2. by rewrite !neighbors_add_node. }
  rewrite neighbors_add_nbr, nodes_add_nbr.
  assert (∀ y z, z ∈ neighbors (Reference.add_nbr u v <$> T2) y
                 ↔ z ∈ neighbors T y ∨ (y = u ∧ z = v)) as H3.
  { intros y z. rewrite neighbors_add_nbr, HT2. case_decide as Hd.
    - destruct Hd as (-> & _ & _).
      rewrite elem_of_app, list_elem_of_singleton. tauto.
    - split; [tauto|]. intros [?|[-> ->]]; [done|].
      destruct (decide (v ∈ neighbors T u)); [done|]. destruct Hd. tauto. }
  case_decide as Hd.
  - destruct Hd as (-> & _ & _).
    rewrite elem_of_app, list_elem_of_singleton, H3. tauto.
  - rewrite H3. split; [tauto|]. intros [?|[?|[-> ->]]]; [tauto..|].
    destruct (decide (u ∈ neighbors (Reference.add_nbr u v <$> T2) v))
      as [Hin|Hin]; [by apply H3 in Hin|].
    destruct Hd. tauto.
Qed.

Lemma add_edge_NoDup_neighbors T u v :
  (∀ x, NoDup (neighbors T x)) →
  ∀ x, NoDup (neighbors (Reference.add_edge T (u, v)) x).
Proof.
  intros HT x. unfold Reference.add_edge. simpl.
  assert (∀ T' a b, (∀ y, NoDup (neighbors T' y)) →
            ∀ y, NoDup (neighbors (Reference.add_nbr a b <$> T') y)) as Hstep.
  { intros T' a b HT' y. rewrite neighbors_add_nbr. case_decide as Hd; [|done].
    apply NoDup_app. split; [done|]. split; [|apply NoDup_singleton].
    intros z Hz ->%list_elem_of_singleton. by destruct Hd as (_ & _ & ?). }
  apply Hstep, Hstep. intros y. by rewrite !neighbors_add_node.
Qed.

(** ** [nx.Graph(graph)] *)

Lemma foldl_add_edge_facts es T0 :
  let T := foldl Reference.add_edge T0 es in
  (∀ x, x ∈ nodes T ↔ x ∈ nodes T0 ∨ ∃ u v, (u, v) ∈ es ∧ (x = u ∨ x = v))
  ∧ (∀ x w, w ∈ neighbors T x
            ↔ w ∈ neighbors T0 x ∨ (x, w) ∈ es ∨ (w, x) ∈ es)
  ∧ (NoDup (nodes T0) → NoDup (nodes T))
  ∧ ((∀ x, NoDup (neighbors T0 x)) → ∀ x, NoDup (neighbors T x))
  ∧ nodes T0 `prefix_of` nodes T.
Proof.
  revert T0. induction es as [|[u v] es IH]; intros T0; simpl.
  - split; [|split; [|done]].
    + intros x. split; [by left|]. intros [?|(? & ? & []%elem_of_nil & _)].
      done.
    + intros x w. split; [by left|].
      intros [?|[[]%elem_of_nil|[]%elem_of_nil]]. done.
  - destruct (IH (Reference.add_edge T0 (u, v)))
      as (Hnodes & Hadj & Hnd & Hndn & Hpre).
    split; [|split; [|split; [|split]]].
    + intros x. rewrite Hnodes, add_edge_nodes. split.
      * intros [[?|Hx]|(a & b & Hab & Hx)].
        -- by left.
        -- right. exists u, v. split; [left|done].
        -- right. exists a, b. split; [by right|done].
      * intros [?|(a & b & [[= -> ->]|Hab]%elem_of_cons & Hx)].
        -- by left; left.
        -- by left; right.
        -- right. by exists a, b.
    + intros x w. rewrite Hadj, add_edge_neighbors, !elem_of_cons.
      split.
      * intros [[?|[[-> ->]|[-> ->]]]|[?|?]]; tauto.
      * intros [?|[[[= -> ->]|?]|[[= -> ->]|?]]]; tauto.
    + intros HT0. by apply Hnd, add_edge_NoDup_nodes.
    + intros HT0. by apply Hndn, add_edge_NoDup_neighbors.
    + etrans; [apply add_edge_nodes_prefix|exact Hpre].
Qed.

Lemma foldl_add_node_facts keys T0 :
  let T := foldl Reference.add_node T0 keys in
  (∀ x, x ∈ nodes T ↔ x ∈ nodes T0 ∨ x ∈ keys)
  ∧ (NoDup (nodes T0) → NoDup (nodes T))
  ∧ (∀ x, neighbors T x = neighbors T0 x)
  ∧ (NoDup (nodes T0 ++ keys) → nodes T = nodes T0 ++ keys).
Proof.
  revert T0. induction keys as [|k keys IH]; intros T0; simpl.
  - split; [|split; [done|split; [done|by rewrite app_nil_r]]].
    intros x. split; [by left|]. by intros [?|[]%elem_of_nil].
  - destruct (IH (Reference.add_node T0 k)) as (Hnodes & Hnd & Hnb & Heq).
    split; [|split; [|split]].
    + intros x. rewrite Hnodes, elem_of_nodes_add_node, elem_of_cons. tauto.
    + intros HT0. by apply Hnd, NoDup_nodes_add_node.
    + intros x. by rewrite Hnb, neighbors_add_node.
    + intros HT0. rewrite Heq; rewrite nodes_add_node.
      * rewrite decide_False; [by rewrite <-app_assoc|].
        apply NoDup_app in HT0 as (_ & HT0 & _). intros Hk.
        apply (HT0 k Hk). left.
      * rewrite decide_False; [by rewrite <-app_assoc|].
        apply NoDup_app in HT0 as (_ & HT0 & _). intros Hk.
        apply (HT0 k Hk). left.
Qed.

Lemma elem_of_listed_edges (graph : list (node * list node)) u v :
  (u, v) ∈ (e ← graph; (λ nbr, (e.1, nbr)) <$> e.2) ↔ listed graph u v.
Proof.
  rewrite list_elem_of_bind. unfold listed. split.
  - intros ([k nbrs] & Hin & He). simpl in Hin.
    apply list_elem_of_fmap in Hin as (w & [= -> ->] & Hw). by exists nbrs.
  - intros (nbrs & He & Hv). exists (u, nbrs). split; [|done].
    simpl. by apply list_elem_of_fmap_2'  with v.
Qed.

(** What [load_graph] builds. *)
Lemma load_graph_facts graph :
  let G := load_graph graph in
  (∀ v, v ∈ nodes G ↔ v ∈ graph.*1 ∨ ∃ u, listed graph u v)
  ∧ (∀ v w, w ∈ neighbors G v ↔ listed graph v w ∨ listed graph w v)
  ∧ NoDup (nodes G)
  ∧ (∀ v, NoDup (neighbors G v)).
Proof.
  unfold load_graph.
  destruct (foldl_add_node_facts graph.*1 []) as (Hn0 & Hnd0 & Hnb0 & _).
  destruct (foldl_add_edge_facts
              (e ← graph; (λ nbr, (e.1, nbr)) <$> e.2)
              (foldl Reference.add_node [] graph.*1))
    as (Hnodes & Hadj & Hnd & Hndn & _).
  simpl. split; [|split; [|split]].
  - intros x. rewrite Hnodes, Hn0. split.
    + intros [[[]%elem_of_nil|?]|(u & v & Huv%elem_of_listed_edges & Hx)];
        [by left|].
      destruct Hx as [->| ->].
      * left. destruct Huv as (nbrs & He & _).
        by apply (list_elem_of_fmap_2 fst) in He.
      * right. by exists u.
    + intros [?|(u & Hu)]; [by left; right|].
      right. exists u, x. split; [by apply elem_of_listed_edges|by right].
  - intros v w. rewrite Hadj, Hnb0, !elem_of_listed_edges. simpl.
    split; [|tauto]. by intros [[]%elem_of_nil|?].
  - apply Hnd, Hnd0. constructor.
  - apply Hndn. intros x. rewrite Hnb0. constructor.
Qed.

(** X15. The graph that [load_graph] builds is well formed and
    undirected: its node keys are unique, every neighbour is a node,
    adjacency is symmetric and no neighbour list holds a node twice. *)
Theorem load_graph_wf graph :
  graph_wf (load_graph graph) ∧ undirected (load_graph graph).
Proof.
  destruct (load_graph_facts graph) as (Hnodes & Hadj & Hnd & Hndn).
  split; [split; [done|]|split; [|done]].
  - apply Forall_forall. intros [v nbrs] He. apply Forall_forall.
    intros w Hw. simpl in Hw.
    rewrite <-(neighbors_entry _ _ _ Hnd He) in Hw.
    apply Hadj in Hw. apply Hnodes. destruct Hw as [Hw|Hw].
    + right. by exists v.
    + left. destruct Hw as (ns & Hin & _).
      by apply (list_elem_of_fmap_2 fst) in Hin.
  - intros v w. rewrite !Hadj. tauto.
Qed.

(** X16. In the graph that [load_graph] builds, two nodes are adjacent
    exactly when the file lists one of them as a neighbour of the other
    (the file need not list an edge on both sides), and the nodes are the
    keys of the file together with the neighbours it lists. *)
Theorem load_graph_adjacency graph :
  let G := load_graph graph in
  (∀ v w, w ∈ neighbors G v ↔ listed graph v w ∨ listed graph w v)
  ∧ (∀ v, v ∈ nodes G ↔ v ∈ graph.*1 ∨ ∃ u, listed graph u v).
Proof.
  destruct (load_graph_facts graph) as (Hnodes & Hadj & _ & _).
  done.
Qed.

(** * Reading the input *)

Lemma chars_rev_app (s t : string) :
  chars (String.rev_app s t) = reverse (chars s) ++ chars t.
Proof.
  revert t. induction s as [|a s IH]; intros t; [done|].
  simpl. rewrite IH. unfold chars. simpl.
  by rewrite reverse_cons, <-app_assoc.
Qed.

Lemma chars_rev (s : string) : chars (String.rev s) = reverse (chars s).
Proof. unfold String.rev. by rewrite chars_rev_app, app_nil_r. Qed.

Lemma chars_inj (s t : string) : chars s = chars t → s = t.
Proof.
  revert t. induction s as [|a s IH]; intros [|b t]; try done.
  unfold chars. simpl. intros [= -> Hst]. f_equal. by apply IH.
Qed.

Lemma dots_lstrip s : dots (lstrip s) = dots s.
Proof.
  induction s as [|a s IH]; [done|]. simpl.
  destruct (Ascii.is_space a) eqn:Ha; [|done].
  rewrite IH. unfold dots, chars. simpl. rewrite filter_cons.
  rewrite decide_False; [done|]. by intros ->.
Qed.

Lemma dots_rev s : dots (String.rev s) = dots s.
Proof.
  unfold dots. by rewrite chars_rev, filter_reverse, length_reverse.
Qed.

Lemma dots_strip s : dots (strip s) = dots s.
Proof.
  unfold strip, rstrip. by rewrite dots_rev, dots_lstrip, dots_rev, dots_lstrip.
Qed.

(** Joining the pieces of a split with the separator gives the string
    back. *)
Lemma join_split_on c s : join (String c "") (split_on c s) = s.
Proof.
  induction s as [|a s IH]; [done|]. simpl.
  pose proof (split_on_nonempty c s) as Hne.
  destruct (decide (a = c)) as [->|Hac].
  - unfold join in *. destruct (split_on c s) as [|w ws]; [done|].
    change (String.concat (String c "") ("" :: w :: ws))
      with (String c (String.concat (String c "") (w :: ws))).
    by rewrite IH.
  - unfold join in *. destruct (split_on c s) as [|w [|w' ws]]; [done|..].
    + simpl in *. by rewrite IH.
    + change (String.concat (String c "") (String a w :: w' :: ws))
        with (String a (String.concat (String c "") (w :: w' :: ws))).
      by rewrite IH.
Qed.

Lemma split_on_pieces c s :
  Forall (λ w, c ∉ chars w) (split_on c s).
Proof.
  induction s as [|a s IH]; simpl.
  - repeat constructor. unfold chars. simpl. apply not_elem_of_nil.
  - pose proof (split_on_nonempty c s) as Hne.
    destruct (decide (a = c)) as [->|Hac].
    + constructor; [|done]. unfold chars. simpl. apply not_elem_of_nil.
    + destruct (split_on c s) as [|w ws]; [done|].
      apply Forall_cons in IH as [Hw Hws]. constructor; [|done].
      unfold chars in *. simpl. rewrite not_elem_of_cons. split; [done|done].
Qed.

Lemma word_rev w : word w → word (String.rev w).
Proof.
  intros [Hne Hall]. split.
  - intros Hrev. apply Hne, chars_inj.
    apply (f_equal chars) in Hrev. rewrite chars_rev in Hrev.
    apply (f_equal reverse) in Hrev. by rewrite reverse_involutive in Hrev.
  - rewrite chars_rev. by apply Forall_reverse.
Qed.

Lemma words_go_words cur s :
  (∀ w, cur = Some w → word w) → Forall word (String.words_go cur s).
Proof.
  revert cur. induction s as [|a s IH]; intros cur Hcur; simpl.
  - destruct cur as [w|]; simpl; [|constructor].
    constructor; [|constructor]. by apply word_rev, Hcur.
  - destruct (Ascii.is_space a) eqn:Ha.
    + apply Forall_app. split; [|by apply IH].
      destruct cur as [w|]; simpl; [|constructor].
      constructor; [|constructor]. by apply word_rev, Hcur.
    + apply IH. intros w [= <-]. destruct cur as [w'|]; simpl.
      * destruct (Hcur w' eq_refl) as [_ Hall].
        split; [done|]. unfold chars. simpl. by constructor.
      * split; [done|]. unfold chars. simpl. by repeat constructor.
Qed.

Section input.
Context {py : Builtins}.

(** X17. [get_user_input] stops on its assertion exactly when the name
    that was typed does not hold exactly two dots, white space around it
    put aside; it then has asked for nothing else: one line is consumed
    and one prompt written. *)
Theorem get_user_input_assertion filename rest out :
  int_raises_ValueError →
  ((get_user_input (Console (filename :: rest) out)).2 = Err AssertionError
   ↔ dots filename ≠ 2)
  ∧ (dots filename ≠ 2 →
     (get_user_input (Console (filename :: rest) out)).1
     = Console rest
         (out ++ ["Enter the filename (leave out .json extension) -> "])).
Proof.
  intros Hint. unfold get_user_input. simpl.
  rewrite split_on_length. fold (dots (strip filename)). rewrite dots_strip.
  destruct (decide (S (dots filename) = 3)) as [Heq|Hne].
  - split; [|lia]. split; [|lia]. intros Herr. exfalso.
    destruct rest as [|line rest]; simpl in Herr; [done|].
    destruct (int _) as [n|e] eqn:Hn; simpl in Herr; [done|].
    injection Herr as ->. by apply Hint in Hn.
  - split; [|done]. split; [lia|done].
Qed.

(** X18. When [get_user_input] returns, it has read two lines and written
    its two prompts; the name it returns is the first line as typed, which
    once stripped is three dot-free fields joined by dots, the seed budget
    is [int] of the middle field, and the strategies are the words of the
    second line: none is empty, none holds white space. *)
Theorem get_user_input_returns c c' filename n strategies :
  get_user_input c = (c', Ok (filename, n, strategies)) →
  ∃ strategy_str x y z,
    stdin c = filename :: strategy_str :: stdin c'
    ∧ stdout c'
      = stdout c ++ ["Enter the filename (leave out .json extension) -> ";
                     "Enter the strategies to run separated by spaces -> "]
    ∧ strip filename = x +:+ "." +:+ y +:+ "." +:+ z
    ∧ Forall (λ w, "."%char ∉ chars w) [x; y; z]
    ∧ int y = Ok n
    ∧ strategies = String.words (strip strategy_str)
    ∧ Forall word strategies.
Proof.
  unfold get_user_input, raw_input.
  destruct (stdin c) as [|line1 [|line2 rest]] eqn:Hin; simpl; [done| |].
  - case_decide; done.
  - pose proof (join_split_on "." (strip line1)) as Hjoin.
    pose proof (split_on_pieces "." (strip line1)) as Hpieces.
    case_decide as Hlen; [|done].
    destruct (split_on "." (strip line1)) as [|x [|y [|z [|? ?]]]]; try done.
    change ([x; y; z] !!! 1) with y.
    destruct (int y) as [m|e] eqn:Hy; simpl; [|done].
    intros [= <- <- <- <-]. exists line2, x, y, z. simpl.
    split; [done|]. split; [by rewrite <-app_assoc|].
    split; [by rewrite <-Hjoin|]. split; [done|]. split; [done|].
    split; [done|]. by apply words_go_words.
Qed.

End input.

Lemma digits_value_ValueError acc s e :
  digits_value acc s = Err e → e = ValueError.
Proof.
  revert acc. induction s as [|a s IH]; intros acc; simpl; [done|].
  destruct (Ascii.is_nat a); [apply IH|congruence].
Qed.

Lemma digits_only_ValueError : int_raises_ValueError (py:=digits_only).
Proof.
  intros s e. simpl. case_decide; [congruence|].
  apply digits_value_ValueError.
Qed.

Lemma get_user_input_assertion_witness :
  int_raises_ValueError (py:=digits_only)
  ∧ dots "2.10.1.json" ≠ 2
  ∧ get_user_input (py:=digits_only) (Console ["2.10.1.json"; "d"] [])
    = (Console ["d"] ["Enter the filename (leave out .json extension) -> "],
       Err AssertionError).
Proof.
  assert (dots "2.10.1.json" ≠ 2) as Hdots by (vm_compute; lia).
  split; [exact digits_only_ValueError|]. split; [exact Hdots|].
  destruct (get_user_input_assertion (py:=digits_only) "2.10.1.json" ["d"] []
              digits_only_ValueError) as [Hiff Hc].
  rewrite (surjective_pairing (get_user_input _)).
  rewrite (Hc Hdots), (proj2 Hiff Hdots). done.
Defined.

Lemma get_user_input_returns_witness :
  get_user_input (py:=digits_only) (Console ["  2.10.1 "; " d V  r"] [])
  = (Console [] ["Enter the filename (leave out .json extension) -> ";
                 "Enter the strategies to run separated by spaces -> "],
     Ok ("  2.10.1 ", 10%Z, ["d"; "V"; "r"]))
  ∧ Forall word ["d"; "V"; "r"].
Proof.
  assert (get_user_input (py:=digits_only)
            (Console ["  2.10.1 "; " d V  r"] [])
          = (Console [] ["Enter the filename (leave out .json extension) -> ";
                         "Enter the strategies to run separated by spaces -> "],
             Ok ("  2.10.1 ", 10%Z, ["d"; "V"; "r"]))) as Hrun
    by (vm_compute; reflexivity).
  split; [exact Hrun|].
  destruct (get_user_input_returns (py:=digits_only) _ _ _ _ _ Hrun)
    as (? & ? & ? & ? & _ & _ & _ & _ & _ & _ & Hwords).
  exact Hwords.
Defined.

(** * The extracted set and the candidates *)

Lemma size_filter_le (S : gset node) (l : list node) :
  NoDup l → length (filter (λ v, v ∈ S) l) ≤ size S.
Proof.
  intros Hl. unfold size, set_size. simpl.
  apply submseteq_length, NoDup_submseteq; [by apply NoDup_filter|].
  intros x [Hx _]%list_elem_of_filter. by apply elem_of_elements.
Qed.

(** The candidates ranked from the subgraph that keeps the nodes of [S]. *)
Lemma subgraph_candidates G (S : gset node) m :
  NoDup (nodes G) →
  let c := (nlargest m (degree_centrality
              (remove_nodes_from (list_to_set (nodes G) ∖ S) G))).*1 in
  (∀ v, v ∈ c → v ∈ S ∧ v ∈ nodes G)
  ∧ (size S ≤ m → ∀ v, v ∈ S → v ∈ nodes G → v ∈ c).
Proof.
  intros Hnd c.
  assert (∀ v, v ∈ nodes (remove_nodes_from (list_to_set (nodes G) ∖ S) G)
               ↔ v ∈ S ∧ v ∈ nodes G) as Hsub.
  { intros v. rewrite remove_nodes_from_nodes, list_elem_of_filter.
    rewrite elem_of_difference, elem_of_list_to_set.
    destruct (decide (v ∈ S)); tauto. }
  split.
  - intros v Hv. apply Hsub.
    destruct (ranked_keys_facts
                (remove_nodes_from (list_to_set (nodes G) ∖ S) G) m)
      as (_ & Hin & _); [|by apply Hin].
    rewrite remove_nodes_from_nodes. by apply NoDup_filter.
  - intros Hm v HvS Hv. unfold c.
    rewrite nlargest_all, sorted_desc_keys, degree_centrality_keys;
      [by apply Hsub|].
    rewrite <-(length_fmap fst), degree_centrality_keys.
    rewrite remove_nodes_from_nodes.
    etrans; [|exact Hm]. etrans; [|by apply (size_filter_le S (nodes G))].
    apply Nat.eq_le_incl. f_equal. apply filter_ext_in. intros x Hx.
    rewrite elem_of_difference, elem_of_list_to_set.
    destruct (decide (x ∈ S)); tauto.
Qed.

Section extracted.
Context {nx : NetworkX}.

(** X9. The candidates of the vertex-cover and dominating-set strategies
    are nodes of the extracted set; and when the extracted set has at most
    [num_seeds] nodes, every one of its nodes is a candidate, hence a
    seed. *)
Theorem extracted_set_candidates G num_seeds S c :
  NoDup (nodes G) →
  (min_weighted_vertex_cover G = Ok S
   ∧ vertex_cover_candidates G num_seeds = Ok c)
  ∨ (dominating_set G = Ok S
     ∧ dominating_set_candidates G num_seeds = Ok c) →
  (∀ v, v ∈ c → v ∈ S ∧ v ∈ nodes G)
  ∧ (size S ≤ num_seeds → ∀ v, v ∈ S → v ∈ nodes G → v ∈ c).
Proof.
  intros Hnd Hrun.
  assert (c = (nlargest (num_seeds `min` size S)
                 (degree_centrality
                    (remove_nodes_from (list_to_set (nodes G) ∖ S) G))).*1)
    as ->.
  { destruct Hrun as [[HS Hc]|[HS Hc]].
    - unfold vertex_cover_candidates in Hc. rewrite HS in Hc. simpl in Hc.
      rewrite number_of_nodes_min in Hc. by injection Hc as <-.
    - unfold dominating_set_candidates in Hc. rewrite HS in Hc.
      simpl in Hc. case_decide; [|done].
      rewrite number_of_nodes_min in Hc. by injection Hc as <-. }
  destruct (subgraph_candidates G S (num_seeds `min` size S) Hnd)
    as [Hin Hall].
  split; [exact Hin|]. intros Hk. apply Hall. lia.
Qed.

End extracted.

Lemma extracted_set_candidates_witness :
  NoDup (nodes P3)
  ∧ ((min_weighted_vertex_cover (NetworkX:=Reference.networkx) P3
      = Ok (list_to_set ["A"; "B"])
      ∧ vertex_cover_candidates (nx:=Reference.networkx) P3 3
        = Ok ["A"; "B"])
     ∨ (dominating_set (NetworkX:=Reference.networkx) P3
        = Ok (list_to_set ["A"; "B"])
        ∧ dominating_set_candidates (nx:=Reference.networkx) P3 3
          = Ok ["A"; "B"]))
  ∧ (∀ v, v ∈ ["A"; "B"] → v ∈ (list_to_set ["A"; "B"] : gset node)
                           ∧ v ∈ nodes P3).
Proof.
  assert (NoDup (nodes P3)) as Hnd by by_computation.
  assert ((min_weighted_vertex_cover (NetworkX:=Reference.networkx) P3
           = Ok (list_to_set ["A"; "B"])
           ∧ vertex_cover_candidates (nx:=Reference.networkx) P3 3
             = Ok ["A"; "B"])
          ∨ (dominating_set (NetworkX:=Reference.networkx) P3
             = Ok (list_to_set ["A"; "B"])
             ∧ dominating_set_candidates (nx:=Reference.networkx) P3 3
               = Ok ["A"; "B"])) as Hrun.
  { left. split; vm_compute; reflexivity. }
  split; [exact Hnd|]. split; [exact Hrun|].
  exact (proj1 (extracted_set_candidates (nx:=Reference.networkx)
                  P3 3 _ _ Hnd Hrun)).
Defined.
